(** * sklvq: the Soft+ activation function and the BFGS solver adapter

    A shallow embedding of
    - [sklvq/activations/_soft_plus.py] (class [SoftPlus]) and
    - [sklvq/solvers/broyden_fletcher_goldfarb_shanno.py]
      (class [BroydenFletcherGoldfarbShanno]),
    followed by the properties of the two classes.

    The Python code is written once against numpy's scalar arithmetic; the
    embedding is written once against a [Scalar] interface and read at three
    instances: the real numbers (the arithmetic the docstrings speak of),
    [float64_scalar], binary64 values with their infinities and NaN and no
    rounding error, and [binary64], the same values with the rounding of
    every operation left as a parameter.  What the methods return on float
    arrays is stated at [binary64]; the statements at [float64_scalar] are
    those that no rounding changes (infinities, NaN, signs). *)

From Stdlib Require Import Reals Lra Psatz ZArith Ascii String DecimalString.
From stdpp Require Import base gmap strings list.

(** ** Python exceptions and results *)

Inductive exn : Type :=
| ValueError (msg : string)
| TypeError (msg : string)
| AttributeError (msg : string).

Inductive result (A : Type) : Type :=
| Ok (a : A)
| Raise (e : exn).
Arguments Ok {A} a.
Arguments Raise {A} e.

(** [s] occurs in [msg] (Python's [s in msg]). *)
Definition occurs_in (s msg : string) : Prop :=
  exists pre post : string, msg = (pre ++ s ++ post)%string.

(** ** Scalars

    The operations the two methods use on array elements:
    [*], [+], [/], [np.exp], [np.log], the comparison of [__init__], and the
    conversion of a Python [int] ([1 + ...], an integer [beta]). *)

Class Scalar (T : Type) : Type := {
  f_of_int : Z -> T;
  f_add : T -> T -> T;
  f_mul : T -> T -> T;
  f_div : T -> T -> T;
  f_exp : T -> T;
  f_log : T -> T;
  f_le : T -> T -> bool
}.

(** [beta : Union[int, float]]. *)
Inductive number (T : Type) : Type :=
| Int (z : Z)
| Float (t : T).
Arguments Int {T} z.
Arguments Float {T} t.

(** The float a number stands for in arithmetic with a float array.  A
    Python [int] too large for a float has none (Python raises
    [OverflowError] where this conversion gives an infinity): the statements
    about the values of the methods are about a [beta] whose float is
    finite. *)
Definition to_scalar {T} `{Scalar T} (n : number T) : T :=
  match n with
  | Int z => f_of_int z
  | Float t => t
  end.

(** [n <= 0] as Python evaluates it: integers compare as integers. *)
Definition number_le0 {T} `{Scalar T} (n : number T) : bool :=
  match n with
  | Int z => (z <=? 0)%Z
  | Float t => f_le t (f_of_int 0)
  end.

(** *** Exact arithmetic *)

#[export] Instance Rle_rel_dec : RelDecision Rle := Rle_dec.

#[export] Instance R_scalar : Scalar R := {|
  f_of_int := IZR;
  f_add := Rplus;
  f_mul := Rmult;
  f_div := Rdiv;
  f_exp := exp;
  f_log := ln;
  f_le := fun a b => bool_decide (a <= b)%R
|}.

(** *** numpy's float64

    A binary64 value is a finite number, an infinity or NaN.  Rounding inside
    the range is not modelled (a finite result is the exact one, and zero has
    no sign); leaving the range is: a result of the size [OVERFLOW] or beyond
    is an infinity, as it is under IEEE 754's rounding to nearest, and the
    special values combine as IEEE 754 says. *)

#[export] Instance Rlt_rel_dec : RelDecision Rlt := Rlt_dec.
#[export] Instance R_eq_dec : EqDecision R := Req_dec_T.

Inductive float64 : Type :=
| Finite (r : R)
| PosInf
| NegInf
| NaN.

(** Half way from the largest binary64 number, [2^1024 - 2^971], to
    [2^1024]: what is this large rounds to an infinity, what is smaller to a
    finite number. *)
Definition OVERFLOW : R := IZR (2 ^ 1024 - 2 ^ 970).

Definition in_range (r : R) : float64 :=
  if decide (OVERFLOW <= r)%R then PosInf
  else if decide (r <= - OVERFLOW)%R then NegInf
  else Finite r.

(** An infinity (positive when [pos]) times the finite [r]. *)
Definition inf_times (pos : bool) (r : R) : float64 :=
  if decide (0 < r)%R then (if pos then PosInf else NegInf)
  else if decide (r < 0)%R then (if pos then NegInf else PosInf)
  else NaN.

Definition f64_add (x y : float64) : float64 :=
  match x, y with
  | NaN, _ | _, NaN => NaN
  | Finite a, Finite b => in_range (a + b)
  | PosInf, NegInf | NegInf, PosInf => NaN
  | PosInf, _ | _, PosInf => PosInf
  | NegInf, _ | _, NegInf => NegInf
  end.

Definition f64_mul (x y : float64) : float64 :=
  match x, y with
  | NaN, _ | _, NaN => NaN
  | Finite a, Finite b => in_range (a * b)
  | Finite a, PosInf | PosInf, Finite a => inf_times true a
  | Finite a, NegInf | NegInf, Finite a => inf_times false a
  | PosInf, PosInf | NegInf, NegInf => PosInf
  | PosInf, NegInf | NegInf, PosInf => NegInf
  end.

Definition f64_div (x y : float64) : float64 :=
  match x, y with
  | NaN, _ | _, NaN => NaN
  | Finite a, Finite b =>
      if decide (b = 0%R) then inf_times true a else in_range (a / b)
  | Finite _, (PosInf | NegInf) => Finite 0
  | PosInf, Finite b => if decide (b < 0)%R then NegInf else PosInf
  | NegInf, Finite b => if decide (b < 0)%R then PosInf else NegInf
  | (PosInf | NegInf), (PosInf | NegInf) => NaN
  end.

Definition f64_exp (x : float64) : float64 :=
  match x with
  | NaN => NaN
  | PosInf => PosInf
  | NegInf => Finite 0
  | Finite r => in_range (exp r)
  end.

Definition f64_log (x : float64) : float64 :=
  match x with
  | NaN | NegInf => NaN
  | PosInf => PosInf
  | Finite r =>
      if decide (r < 0)%R then NaN
      else if decide (r = 0%R) then NegInf
      else Finite (ln r)
  end.

Definition f64_le (x y : float64) : bool :=
  match x, y with
  | NaN, _ | _, NaN => false
  | Finite a, Finite b => bool_decide (a <= b)%R
  | NegInf, _ | _, PosInf => true
  | _, _ => false
  end.

#[export] Instance float64_scalar : Scalar float64 := {|
  f_of_int := fun z => in_range (IZR z);
  f_add := f64_add;
  f_mul := f64_mul;
  f_div := f64_div;
  f_exp := f64_exp;
  f_log := f64_log;
  f_le := f64_le
|}.

(** *** float64 with rounding

    The same values, with the rounding of every operation explicit: [rnd r]
    is the binary64 number an exact result [r] inside the range is rounded
    to, [libm_exp r] and [libm_log r] are what [np.exp] and [np.log] return
    at a finite [r] ([np.exp] where [exp r] is inside the range, [np.log] at
    a positive [r]).  The three are parameters; what is known of them,
    [accurate] and [order_preserving], is assumed where it is used.
    [float64_scalar] is the instance with no rounding error. *)

Section Binary64.
Variable rnd : R -> R.
Variable libm_exp : R -> R.
Variable libm_log : R -> R.

Definition rounded (r : R) : float64 :=
  if decide (OVERFLOW <= r)%R then PosInf
  else if decide (r <= - OVERFLOW)%R then NegInf
  else Finite (rnd r).

Definition b64_add (x y : float64) : float64 :=
  match x, y with
  | NaN, _ | _, NaN => NaN
  | Finite a, Finite b => rounded (a + b)
  | PosInf, NegInf | NegInf, PosInf => NaN
  | PosInf, _ | _, PosInf => PosInf
  | NegInf, _ | _, NegInf => NegInf
  end.

Definition b64_mul (x y : float64) : float64 :=
  match x, y with
  | NaN, _ | _, NaN => NaN
  | Finite a, Finite b => rounded (a * b)
  | Finite a, PosInf | PosInf, Finite a => inf_times true a
  | Finite a, NegInf | NegInf, Finite a => inf_times false a
  | PosInf, PosInf | NegInf, NegInf => PosInf
  | PosInf, NegInf | NegInf, PosInf => NegInf
  end.

Definition b64_div (x y : float64) : float64 :=
  match x, y with
  | NaN, _ | _, NaN => NaN
  | Finite a, Finite b =>
      if decide (b = 0%R) then inf_times true a else rounded (a / b)
  | Finite _, (PosInf | NegInf) => Finite 0
  | PosInf, Finite b => if decide (b < 0)%R then NegInf else PosInf
  | NegInf, Finite b => if decide (b < 0)%R then PosInf else NegInf
  | (PosInf | NegInf), (PosInf | NegInf) => NaN
  end.

Definition b64_exp (x : float64) : float64 :=
  match x with
  | NaN => NaN
  | PosInf => PosInf
  | NegInf => Finite 0
  | Finite r => if decide (OVERFLOW <= exp r)%R then PosInf else Finite (libm_exp r)
  end.

Definition b64_log (x : float64) : float64 :=
  match x with
  | NaN | NegInf => NaN
  | PosInf => PosInf
  | Finite r =>
      if decide (r < 0)%R then NaN
      else if decide (r = 0%R) then NegInf
      else Finite (libm_log r)
  end.

Definition binary64 : Scalar float64 := {|
  f_of_int := fun z => rounded (IZR z);
  f_add := b64_add;
  f_mul := b64_mul;
  f_div := b64_div;
  f_exp := b64_exp;
  f_log := b64_log;
  f_le := f64_le
|}.

(** The standard model of floating-point arithmetic: every operation
    returns its exact result [r] with an error of at most
    [eps * (1 + |r|)], relative for a large result and absolute for a small
    one (so that results that underflow are covered), and [1] is a binary64
    number.  For IEEE 754's rounding to nearest and a libm accurate to one
    unit in the last place, [eps] is [2^-52]. *)
Record accurate (eps : R) : Prop := {
  accurate_eps : (0 <= eps <= 1 / 16)%R;
  accurate_one : rnd 1 = 1%R;
  accurate_rnd : forall r : R,
    (- OVERFLOW < r < OVERFLOW)%R -> (Rabs (rnd r - r) <= eps * (1 + Rabs r))%R;
  accurate_exp : forall r : R,
    (exp r < OVERFLOW)%R -> (Rabs (libm_exp r - exp r) <= eps * (1 + exp r))%R;
  accurate_log : forall s : R,
    (0 < s)%R -> (Rabs (libm_log s - ln s) <= eps * (1 + Rabs (ln s)))%R
}.

(** Rounding and the two library functions keep the order of their
    arguments, [0] and [1] are binary64 numbers, [np.exp] is never negative
    and [np.log 1] is [0]. *)
Record order_preserving : Prop := {
  order_rnd : forall r s : R, (r <= s)%R -> (rnd r <= rnd s)%R;
  order_zero : rnd 0 = 0%R;
  order_one : rnd 1 = 1%R;
  order_exp : forall r s : R, (r <= s)%R -> (libm_exp r <= libm_exp s)%R;
  order_exp_sign : forall r : R, (0 <= libm_exp r)%R;
  order_log : forall r s : R, (0 < r <= s)%R -> (libm_log r <= libm_log s)%R;
  order_log_one : libm_log 1 = 0%R
}.

End Binary64.

(** [x <= y] on float64 values. *)
Definition le64 (x y : float64) : Prop := f64_le x y = true.

(** ** Arrays

    A numpy array is a shape and a flat buffer in row-major order. *)

Record ndarray (T : Type) : Type := mk_ndarray {
  shape : list nat;
  data : list T
}.
Arguments mk_ndarray {T} shape data.
Arguments shape {T} _.
Arguments data {T} _.

Definition size_of (sh : list nat) : nat := foldr Nat.mul 1 sh.

Definition well_formed {T} (a : ndarray T) : Prop :=
  length (data a) = size_of (shape a).

Section Numpy.
Context {T : Type} `{Scalar T}.

(** A ufunc of one argument: a new array of the same shape. *)
Definition ufunc (f : T -> T) (a : ndarray T) : ndarray T :=
  mk_ndarray (shape a) (f <$> data a).

Definition np_exp : ndarray T -> ndarray T := ufunc f_exp.
Definition np_log : ndarray T -> ndarray T := ufunc f_log.

(** [c * a] and [c + a] for a Python scalar [c]: the scalar is broadcast. *)
Definition scalar_mul (c : T) : ndarray T -> ndarray T := ufunc (f_mul c).
Definition scalar_add (c : T) : ndarray T -> ndarray T := ufunc (f_add c).

(** [a / b] for two arrays of one shape, element by element.  [gradient]
    divides two arrays that both have the shape of its argument
    ([gradient_operands]), so no broadcasting between shapes is involved. *)
Definition np_divide (a b : ndarray T) : ndarray T :=
  mk_ndarray (shape a) (zip_with f_div (data a) (data b)).

End Numpy.

(** ** The heap: instances and arrays

    Python passes references.  An instance of a class with
    [__slots__ = "beta"] is a type and one slot, empty until it is assigned;
    an array is a buffer that numpy operations read and never write, each
    returning a newly allocated array. *)

Definition loc : Type := positive.

Record object (T : Type) : Type := mk_object {
  ob_type : string;
  ob_beta : option (number T)
}.
Arguments mk_object {T} ob_type ob_beta.
Arguments ob_type {T} _.
Arguments ob_beta {T} _.

Record heap (T : Type) : Type := mk_heap {
  objects : gmap loc (object T);
  arrays : gmap loc (ndarray T)
}.
Arguments mk_heap {T} objects arrays.
Arguments objects {T} _.
Arguments arrays {T} _.

(** A computation returns or raises, and leaves a heap either way. *)
Definition M (T A : Type) : Type := heap T -> result A * heap T.

Definition ret {T A} (a : A) : M T A := fun h => (Ok a, h).

Definition raise {T A} (e : exn) : M T A := fun h => (Raise e, h).

Definition bind {T A B} (c : M T A) (k : A -> M T B) : M T B :=
  fun h =>
    match c h with
    | (Ok a, h') => k a h'
    | (Raise e, h') => (Raise e, h')
    end.

Notation "x <- c ;; k" := (bind c (fun x => k))
  (at level 100, c at next level, right associativity).

Section Heap.
Context {T : Type}.

(** [cls.__new__(cls)]: a fresh instance, its slot empty. *)
Definition new_object (cls : string) : M T loc :=
  fun h =>
    let l := fresh (dom (objects h)) in
    (Ok l, mk_heap (<[l := mk_object cls None]> (objects h)) (arrays h)).

(** [type(self).__name__] *)
Definition type_name (self : loc) : M T string :=
  fun h =>
    match objects h !! self with
    | Some o => (Ok (ob_type o), h)
    | None => (Raise (AttributeError "__name__"), h)
    end.

(** [self.beta] *)
Definition get_beta (self : loc) : M T (number T) :=
  fun h =>
    match objects h !! self with
    | Some (mk_object _ (Some b)) => (Ok b, h)
    | _ => (Raise (AttributeError "beta"), h)
    end.

(** [self.beta = b] *)
Definition set_beta (self : loc) (b : number T) : M T unit :=
  fun h =>
    match objects h !! self with
    | Some o =>
        (Ok tt, mk_heap (<[self := mk_object (ob_type o) (Some b)]> (objects h)) (arrays h))
    | None => (Raise (AttributeError "beta"), h)
    end.

Definition read_array (x : loc) : M T (ndarray T) :=
  fun h =>
    match arrays h !! x with
    | Some a => (Ok a, h)
    | None => (Raise (TypeError "ndarray expected"), h)
    end.

Definition new_array (a : ndarray T) : M T loc :=
  fun h =>
    let l := fresh (dom (arrays h)) in
    (Ok l, mk_heap (objects h) (<[l := a]> (arrays h))).

(** A numpy operation applied to references: the operands are read, the
    result is a new array. *)
Definition np1 (f : ndarray T -> ndarray T) (x : loc) : M T loc :=
  a <- read_array x ;; new_array (f a).

Definition np2 (f : ndarray T -> ndarray T -> ndarray T) (x y : loc) : M T loc :=
  a <- read_array x ;; b <- read_array y ;; new_array (f a b).

End Heap.

(** ** [str.format] and [str] of a number *)

(** [template.format(a1, ..., an)] for a template whose fields are all [{}];
    a field with no argument left is Python's IndexError, which the one
    call of this file (two fields, two arguments) cannot reach. *)
Fixpoint format (template : string) (args : list string) : string :=
  match template with
  | EmptyString => EmptyString
  | String "{"%char (String "}"%char rest) =>
      match args with
      | a :: args' => (a ++ format rest args')%string
      | [] => format rest []
      end
  | String c rest => String c (format rest args)
  end.

(** [str(z)] for an [int]. *)
Definition str_int (z : Z) : string := NilZero.string_of_int (Z.to_int z).

(** ** [SoftPlus] *)

Module SoftPlus.
Section Methods.
Context {T : Type} `{Scalar T}.

(** [str(t)] for a float [t]: Python's shortest round-trip representation,
    a builtin that is left open here. *)
Variable str_float : T -> string.

Definition str_number (n : number T) : string :=
  match n with
  | Int z => str_int z
  | Float t => str_float t
  end.

(** [def __init__(self, beta=1)] *)
Definition init (self : loc) (beta : number T) : M T unit :=
  if number_le0 beta then
    name <- type_name self ;;
    raise (ValueError
             (format "The activation function {} expects beta > 0, but got beta = {}"
                     [name; str_number beta]))
  else
    set_beta self beta.

Definition default_beta : number T := Int 1.

(** The expression [SoftPlus(beta)]: allocate, initialise, and only then
    hand the reference to the caller. *)
Definition new (beta : number T) : M T loc :=
  self <- new_object "SoftPlus" ;;
  u <- init self beta ;;
  ret self.

(** The value [__call__] returns, as a function of [self.beta] and of the
    contents of [x]:
    [return np.log(1 + np.exp(self.beta * x))] *)
Definition call (beta : number T) (x : ndarray T) : ndarray T :=
  np_log (scalar_add (f_of_int 1) (np_exp (scalar_mul (to_scalar beta) x))).

(** The value [gradient] returns:
    [exp = np.exp(self.beta * x)]
    [return (self.beta * exp) / (1 + exp)] *)
Definition gradient (beta : number T) (x : ndarray T) : ndarray T :=
  let exp := np_exp (scalar_mul (to_scalar beta) x) in
  np_divide (scalar_mul (to_scalar beta) exp) (scalar_add (f_of_int 1) exp).

(** The same two methods on the heap, one step per attribute read and per
    numpy operation. *)
Definition call_method (self x : loc) : M T loc :=
  beta <- get_beta self ;;
  t1 <- np1 (scalar_mul (to_scalar beta)) x ;;
  t2 <- np1 np_exp t1 ;;
  t3 <- np1 (scalar_add (f_of_int 1)) t2 ;;
  np1 np_log t3.

Definition gradient_method (self x : loc) : M T loc :=
  beta <- get_beta self ;;
  t1 <- np1 (scalar_mul (to_scalar beta)) x ;;
  exp <- np1 np_exp t1 ;;
  beta' <- get_beta self ;;
  num <- np1 (scalar_mul (to_scalar beta')) exp ;;
  den <- np1 (scalar_add (f_of_int 1)) exp ;;
  np2 np_divide num den.

End Methods.
End SoftPlus.

(** ** Vocabulary of the statements about the heap *)

(** [c] returns from [h], with a value and a heap that satisfy [Q]. *)
Definition returns {T A} (c : M T A) (h : heap T) (Q : A -> heap T -> Prop) : Prop :=
  exists a h', c h = (Ok a, h') /\ Q a h'.

(** [self] is an instance whose slot holds [beta]. *)
Definition instance_of {T} (h : heap T) (self : loc) (beta : number T) : Prop :=
  exists cls, objects h !! self = Some (mk_object cls (Some beta)).

(** From [h] to [h'] no instance was created or changed and no array was
    changed or freed: arrays were at most added. *)
Definition unchanged {T} (h h' : heap T) : Prop :=
  objects h' = objects h /\ arrays h ⊆ arrays h'.

(** A caller that invokes the two methods of one instance any number of
    times, in any order, on arrays of its choice. *)
Inductive invocation : Type :=
| Value (x : loc)
| Gradient (x : loc).

Definition invoke {T} `{Scalar T} (self : loc) (c : invocation) : M T loc :=
  match c with
  | Value x => SoftPlus.call_method self x
  | Gradient x => SoftPlus.gradient_method self x
  end.

Fixpoint invoke_all {T} `{Scalar T} (self : loc) (cs : list invocation)
  : M T (list loc) :=
  match cs with
  | [] => ret []
  | c :: cs' => r <- invoke self c ;; rs <- invoke_all self cs' ;; ret (r :: rs)
  end.

Definition argument (c : invocation) : loc :=
  match c with Value x | Gradient x => x end.

(** Every slot that holds a number holds one that passed the check of
    [__init__]. *)
Definition slots_checked {T} `{Scalar T} (h : heap T) : Prop :=
  forall l o b, objects h !! l = Some o -> ob_beta o = Some b -> number_le0 b = false.

(** ** Vocabulary of the statements about the values *)


(** A heap to run the methods in: the instance [SoftPlus()] at 1, and the
    array [np.array([0.0, 1.0])] at 1. *)
Definition sample_heap : heap R :=
  mk_heap {[ 1%positive := mk_object "SoftPlus" (Some (Int 1)) ]}
          {[ 1%positive := mk_ndarray [2%nat] [0%R; 1%R] ]}.


(** One step of the enclosures of [exp] used for the numeric bounds: the
    square of [a / 2^40], rounded down to a multiple of [1 / 2^40]. *)
Definition sq_down (a : Z) : Z := (a * a / 2 ^ 40)%Z.

(** ** [BroydenFletcherGoldfarbShanno] *)

(** The Python values a solver is configured with: names of methods, [None],
    and other objects (callables, tolerances) by reference. *)
Inductive pyval : Type :=
| PyStr (s : string)
| PyNone
| PyRef (l : loc).

(** The keyword arguments a call [f(..., k1=v1, ..., kn=vn, **kw)] passes:
    the entries of [kw] and the explicit keywords.  A keyword that [kw] also
    holds is given twice, and Python raises TypeError at the call, before the
    callee runs. *)
Fixpoint call_keywords (fname : string) (explicit : list (string * pyval))
    (kw : gmap string pyval) : result (gmap string pyval) :=
  match explicit with
  | [] => Ok kw
  | (k, v) :: rest =>
      match kw !! k with
      | Some _ =>
          Raise (TypeError
                   (fname ++ "() got multiple values for keyword argument '" ++ k ++ "'"))
      | None =>
          match call_keywords fname rest kw with
          | Ok kw' => Ok (<[k := v]> kw')
          | Raise e => Raise e
          end
      end
  end.

Module ScipyBaseSolver.

Record solver : Type := mk_solver {
  objective : pyval;
  method : pyval;
  params : gmap string pyval
}.

Section Init.
(** The method a base solver uses when its caller names none. *)
Variable default_method : pyval.

(** Modelled from the spec: [ScipyBaseSolver.__init__(self, objective,
    method=..., **kwargs)], the base class of the adapters, is not among the
    sources.  Per the data model of the spec, a solver adapter holds the
    objective, the identifier of the underlying method, and the mapping of
    the extra options, passed through verbatim.  [keywords] are the keyword
    arguments of the call. *)
Definition init (objective : pyval) (keywords : gmap string pyval) : solver :=
  mk_solver objective
            (default default_method (keywords !! "method"))
            (delete "method" keywords).
End Init.
End ScipyBaseSolver.

Module BroydenFletcherGoldfarbShanno.
Section Init.
Context {Solver : Type}.

(** [ScipyBaseSolver.__init__], as a function of the objective and of the
    keyword arguments it is called with. *)
Variable base_init : pyval -> gmap string pyval -> result Solver.

(** The keyword arguments of the call of [__init__] to its base class:
    [super().__init__(objective, method="BFGS", **kwargs)] *)
Definition super_keywords (kwargs : gmap string pyval) : result (gmap string pyval) :=
  call_keywords "__init__" [("method", PyStr "BFGS")] kwargs.

(** [def __init__(self, objective, **kwargs)] *)
Definition init (objective : pyval) (kwargs : gmap string pyval) : result Solver :=
  match super_keywords kwargs with
  | Ok keywords => base_init objective keywords
  | Raise e => Raise e
  end.
End Init.
End BroydenFletcherGoldfarbShanno.

(** * Properties *)

(** ** Arrays and the two methods, for any scalar arithmetic *)

Section ArrayFacts.
Context {T : Type} `{Scalar T}.

Lemma ufunc_shape (f : T -> T) (a : ndarray T) : shape (ufunc f a) = shape a.
Proof. reflexivity. Qed.

Lemma ufunc_lookup (f : T -> T) (a : ndarray T) (i : nat) :
  data (ufunc f a) !! i = f <$> data a !! i.
Proof. apply list_lookup_fmap. Qed.

Lemma ufunc_well_formed (f : T -> T) (a : ndarray T) :
  well_formed a -> well_formed (ufunc f a).
Proof. unfold well_formed. simpl. now rewrite length_fmap. Qed.

Lemma zip_with_fmap_same {A B C D : Type} (f : B -> C -> D) (g : A -> B) (k : A -> C)
    (l : list A) :
  zip_with f (g <$> l) (k <$> l) = (fun a => f (g a) (k a)) <$> l.
Proof. induction l as [|a l IH]; [reflexivity |]. cbn. f_equal. exact IH. Qed.

Lemma call_shape (beta : number T) (x : ndarray T) :
  shape (SoftPlus.call beta x) = shape x.
Proof. reflexivity. Qed.

Lemma call_data (beta : number T) (x : ndarray T) :
  data (SoftPlus.call beta x) =
  (fun xi => f_log (f_add (f_of_int 1) (f_exp (f_mul (to_scalar beta) xi)))) <$> data x.
Proof.
  unfold SoftPlus.call, np_log, np_exp, scalar_add, scalar_mul, ufunc. simpl.
  rewrite <- !list_fmap_compose. reflexivity.
Qed.

Lemma call_lookup (beta : number T) (x : ndarray T) (i : nat) :
  data (SoftPlus.call beta x) !! i =
  (fun xi => f_log (f_add (f_of_int 1) (f_exp (f_mul (to_scalar beta) xi)))) <$> data x !! i.
Proof. rewrite call_data. apply list_lookup_fmap. Qed.

(** The two operands of the division in [gradient] have the shape of [x]. *)
Lemma gradient_operands (beta : number T) (x : ndarray T) :
  let exp := np_exp (scalar_mul (to_scalar beta) x) in
  shape (scalar_mul (to_scalar beta) exp) = shape x /\
  shape (scalar_add (f_of_int 1) exp) = shape x /\
  length (data (scalar_mul (to_scalar beta) exp)) = length (data x) /\
  length (data (scalar_add (f_of_int 1) exp)) = length (data x).
Proof. simpl. rewrite !length_fmap. auto. Qed.

Lemma gradient_shape (beta : number T) (x : ndarray T) :
  shape (SoftPlus.gradient beta x) = shape x.
Proof. reflexivity. Qed.

Lemma gradient_data (beta : number T) (x : ndarray T) :
  data (SoftPlus.gradient beta x) =
  (fun xi => f_div (f_mul (to_scalar beta) (f_exp (f_mul (to_scalar beta) xi)))
                (f_add (f_of_int 1) (f_exp (f_mul (to_scalar beta) xi)))) <$> data x.
Proof.
  unfold SoftPlus.gradient, np_divide, np_exp, scalar_add, scalar_mul, ufunc. simpl.
  rewrite <- !list_fmap_compose. apply zip_with_fmap_same.
Qed.

Lemma gradient_lookup (beta : number T) (x : ndarray T) (i : nat) :
  data (SoftPlus.gradient beta x) !! i =
  (fun xi => f_div (f_mul (to_scalar beta) (f_exp (f_mul (to_scalar beta) xi)))
                (f_add (f_of_int 1) (f_exp (f_mul (to_scalar beta) xi)))) <$> data x !! i.
Proof. rewrite gradient_data. apply list_lookup_fmap. Qed.

Lemma call_well_formed (beta : number T) (x : ndarray T) :
  well_formed x -> well_formed (SoftPlus.call beta x).
Proof.
  unfold well_formed. rewrite call_data, call_shape, length_fmap. auto.
Qed.

Lemma gradient_well_formed (beta : number T) (x : ndarray T) :
  well_formed x -> well_formed (SoftPlus.gradient beta x).
Proof.
  unfold well_formed. rewrite gradient_data, gradient_shape, length_fmap. auto.
Qed.

End ArrayFacts.

(** ** Running the methods on the heap *)

Section HeapFacts.
Context {T : Type} `{Scalar T}.

Lemma unchanged_refl (h : heap T) : unchanged h h.
Proof. split; [reflexivity | apply map_subseteq_po]. Qed.

Lemma unchanged_trans (h1 h2 h3 : heap T) :
  unchanged h1 h2 -> unchanged h2 h3 -> unchanged h1 h3.
Proof.
  intros [E1 S1] [E2 S2]. split; [congruence |].
  etransitivity; eassumption.
Qed.

Lemma unchanged_array (h h' : heap T) (x : loc) (a : ndarray T) :
  unchanged h h' -> arrays h !! x = Some a -> arrays h' !! x = Some a.
Proof. intros [_ S] Hx. eapply lookup_weaken; eassumption. Qed.

Lemma unchanged_instance (h h' : heap T) (self : loc) (beta : number T) :
  unchanged h h' -> instance_of h self beta -> instance_of h' self beta.
Proof. intros [E _] [cls Hs]. exists cls. now rewrite E. Qed.

Lemma returns_bind {A B} (c : M T A) (k : A -> M T B) (h : heap T)
    (Q : A -> heap T -> Prop) (R : B -> heap T -> Prop) :
  returns c h Q ->
  (forall a h', Q a h' -> returns (k a) h' R) ->
  returns (a <- c ;; k a) h R.
Proof.
  intros (a & h' & Hc & HQ) Hk.
  destruct (Hk a h' HQ) as (b & h'' & Hkb & HR).
  exists b, h''. split; [| exact HR].
  unfold bind. now rewrite Hc.
Qed.

Lemma returns_ret {A} (a : A) (h : heap T) (Q : A -> heap T -> Prop) :
  Q a h -> returns (ret a) h Q.
Proof. intros HQ. exists a, h. split; [reflexivity | exact HQ]. Qed.

Lemma returns_weaken {A} (c : M T A) (h : heap T) (Q R : A -> heap T -> Prop) :
  returns c h Q -> (forall a h', Q a h' -> R a h') -> returns c h R.
Proof. intros (a & h' & Hc & HQ) HQR. exists a, h'. auto. Qed.

Lemma get_beta_returns (h : heap T) (self : loc) (beta : number T) :
  instance_of h self beta ->
  returns (get_beta self) h (fun b h' => b = beta /\ h' = h).
Proof.
  intros [cls Hs]. exists beta, h. split; [| auto].
  unfold get_beta. now rewrite Hs.
Qed.

Lemma new_array_returns (h : heap T) (a : ndarray T) :
  returns (new_array a) h
    (fun r h' => unchanged h h' /\ arrays h' !! r = Some a /\ arrays h !! r = None).
Proof.
  set (l := fresh (dom (arrays h))).
  assert (Hl : arrays h !! l = None).
  { apply not_elem_of_dom. apply is_fresh. }
  exists l, (mk_heap (objects h) (<[l := a]> (arrays h))).
  split; [reflexivity |]. repeat split; simpl.
  - now apply insert_subseteq.
  - apply lookup_insert_eq.
  - exact Hl.
Qed.

Lemma np1_returns (f : ndarray T -> ndarray T) (h : heap T) (x : loc) (a : ndarray T) :
  arrays h !! x = Some a ->
  returns (np1 f x) h
    (fun r h' => unchanged h h' /\ arrays h' !! r = Some (f a) /\ arrays h !! r = None).
Proof.
  intros Hx. unfold np1.
  apply returns_bind with (Q := fun a' h' => a' = a /\ h' = h).
  - exists a, h. split; [| auto]. unfold read_array. now rewrite Hx.
  - intros a' h' [-> ->]. apply new_array_returns.
Qed.

Lemma np2_returns (f : ndarray T -> ndarray T -> ndarray T) (h : heap T)
    (x y : loc) (a b : ndarray T) :
  arrays h !! x = Some a -> arrays h !! y = Some b ->
  returns (np2 f x y) h
    (fun r h' => unchanged h h' /\ arrays h' !! r = Some (f a b) /\ arrays h !! r = None).
Proof.
  intros Hx Hy. unfold np2.
  apply returns_bind with (Q := fun a' h' => a' = a /\ h' = h).
  - exists a, h. split; [| auto]. unfold read_array. now rewrite Hx.
  - intros a' h' [-> ->].
    apply returns_bind with (Q := fun b' h' => b' = b /\ h' = h).
    + exists b, h. split; [| auto]. unfold read_array. now rewrite Hy.
    + intros b' h' [-> ->]. apply new_array_returns.
Qed.

End HeapFacts.

Section MethodFacts.
Context {T : Type} `{Scalar T}.

Lemma unchanged_fresh (h h' : heap T) (r : loc) :
  unchanged h h' -> arrays h' !! r = None -> arrays h !! r = None.
Proof. intros [_ S] Hr. eapply lookup_weaken_None; eassumption. Qed.

(** One numpy operation in a method: from what is known of the heap so far
    to what is known after it ([U]: nothing changed, [A]: the result,
    [F]: the result was not there before). *)
Tactic Notation "np_step" ident(r) ident(h) ident(U) ident(A) ident(F) :=
  eapply returns_bind;
  [ first [ eapply np1_returns | eapply np2_returns ]; eassumption
  | cbn beta; intros r h [U [A F]] ].

Ltac read_beta Hself :=
  eapply returns_bind;
  [ eapply get_beta_returns; exact Hself
  | cbn beta; intros ? ? [-> ->] ].

(** [__call__] returns a new array, [np.log(1 + np.exp(self.beta * x))]
    computed from the contents of [x], and changes nothing. *)
Lemma call_method_returns (h : heap T) (self x : loc) (beta : number T) (ax : ndarray T) :
  instance_of h self beta ->
  arrays h !! x = Some ax ->
  returns (SoftPlus.call_method self x) h
    (fun r h' => unchanged h h' /\
                 arrays h' !! r = Some (SoftPlus.call beta ax) /\
                 arrays h !! r = None).
Proof.
  intros Hself Hx. unfold SoftPlus.call_method.
  read_beta Hself.
  np_step t1 h1 U1 A1 F1.
  np_step t2 h2 U2 A2 F2.
  np_step t3 h3 U3 A3 F3.
  eapply returns_weaken; [eapply np1_returns; eassumption |].
  cbn beta. intros r h' (U & Hr & Hfresh).
  assert (U13 : unchanged h h3) by eauto using unchanged_trans.
  split; [eauto using unchanged_trans |].
  split; [exact Hr |].
  eauto using unchanged_fresh.
Qed.

(** [gradient] returns a new array, [(self.beta * exp) / (1 + exp)] with
    [exp = np.exp(self.beta * x)], and changes nothing. *)
Lemma gradient_method_returns (h : heap T) (self x : loc) (beta : number T) (ax : ndarray T) :
  instance_of h self beta ->
  arrays h !! x = Some ax ->
  returns (SoftPlus.gradient_method self x) h
    (fun r h' => unchanged h h' /\
                 arrays h' !! r = Some (SoftPlus.gradient beta ax) /\
                 arrays h !! r = None).
Proof.
  intros Hself Hx. unfold SoftPlus.gradient_method.
  read_beta Hself.
  np_step t1 h1 U1 A1 F1.
  np_step e h2 U2 A2 F2.
  assert (U02 : unchanged h h2) by eauto using unchanged_trans.
  read_beta (unchanged_instance _ _ _ _ U02 Hself).
  np_step num h3 U3 A3 F3.
  assert (A2' : arrays h3 !! e = Some (np_exp (scalar_mul (to_scalar beta) ax)))
    by eauto using unchanged_array.
  np_step den h4 U4 A4 F4.
  assert (A3' : arrays h4 !! num =
                Some (scalar_mul (to_scalar beta) (np_exp (scalar_mul (to_scalar beta) ax))))
    by eauto using unchanged_array.
  eapply returns_weaken; [eapply np2_returns; eassumption |].
  cbn beta. intros r h' (U & Hr & Hfresh).
  assert (U04 : unchanged h h4) by eauto using unchanged_trans.
  split; [eauto using unchanged_trans |].
  split; [exact Hr |].
  eauto using unchanged_fresh.
Qed.

End MethodFacts.

(** ** The two formulas over the reals *)

Section RealFacts.
Local Open Scope R_scope.









(** The gradient falls short of [b] by less than [b * exp (- z)]. *)
Lemma scaled_logistic_near (b z : R) :
  0 < b -> b * (1 - exp (- z)) < b * exp z / (1 + exp z).
Proof.
  intros Hb. pose proof (exp_pos z) as He.
  replace (b * exp z / (1 + exp z)) with (b * (exp z / (1 + exp z)))
    by (unfold Rdiv; ring).
  apply Rmult_lt_compat_l; [exact Hb |].
  rewrite exp_Ropp.
  apply Rmult_lt_reg_r with (exp z * (1 + exp z)); [nra |].
  replace ((1 - / exp z) * (exp z * (1 + exp z))) with ((exp z - 1) * (1 + exp z))
    by (field; lra).
  replace (exp z / (1 + exp z) * (exp z * (1 + exp z))) with (exp z * exp z)
    by (field; lra).
  nra.
Qed.


End RealFacts.

(** ** Construction *)

Section ConstructorFacts.
Context {T : Type} `{Scalar T}.
Variable str_float : T -> string.

Lemma append_empty_r (s : string) : (s ++ "")%string = s.
Proof.
  induction s as [|c s IH]; [reflexivity |].
  change (String c (s ++ "") = String c s)%string. now rewrite IH.
Qed.

Lemma append_associative (s1 s2 s3 : string) :
  ((s1 ++ s2) ++ s3)%string = (s1 ++ (s2 ++ s3))%string.
Proof.
  induction s1 as [|c s1 IH]; [reflexivity |].
  change (String c ((s1 ++ s2) ++ s3) = String c (s1 ++ (s2 ++ s3)))%string.
  now rewrite IH.
Qed.

(** The message of the ValueError of [__init__]. *)
Lemma format_message (name value : string) :
  format "The activation function {} expects beta > 0, but got beta = {}" [name; value]
  = ("The activation function " ++ name ++ " expects beta > 0, but got beta = " ++ value)%string.
Proof. cbn. now rewrite append_empty_r. Qed.

Lemma message_mentions (name value : string) :
  occurs_in name
    (format "The activation function {} expects beta > 0, but got beta = {}" [name; value]) /\
  occurs_in value
    (format "The activation function {} expects beta > 0, but got beta = {}" [name; value]).
Proof.
  rewrite format_message. split.
  - exists "The activation function "%string,
           (" expects beta > 0, but got beta = " ++ value)%string.
    reflexivity.
  - exists ("The activation function " ++ name ++ " expects beta > 0, but got beta = ")%string,
           ""%string.
    rewrite append_empty_r, !append_associative. reflexivity.
Qed.

(** When the check fails, [__init__] raises before it touches the heap. *)
Lemma init_raises (h : heap T) (self : loc) (beta : number T) (o : object T) :
  number_le0 beta = true ->
  objects h !! self = Some o ->
  SoftPlus.init str_float self beta h =
  (Raise (ValueError
            (format "The activation function {} expects beta > 0, but got beta = {}"
                    [ob_type o; SoftPlus.str_number str_float beta])), h).
Proof.
  intros Hle Hself. unfold SoftPlus.init. rewrite Hle.
  unfold bind, type_name, raise. now rewrite Hself.
Qed.

(** When it passes, [__init__] assigns the slot, and nothing else. *)
Lemma init_returns (h : heap T) (self : loc) (beta : number T) (o : object T) :
  number_le0 beta = false ->
  objects h !! self = Some o ->
  SoftPlus.init str_float self beta h =
  (Ok tt, mk_heap (<[self := mk_object (ob_type o) (Some beta)]> (objects h)) (arrays h)).
Proof.
  intros Hle Hself. unfold SoftPlus.init. rewrite Hle.
  unfold set_beta. now rewrite Hself.
Qed.

Lemma new_raises (h : heap T) (beta : number T) :
  number_le0 beta = true ->
  SoftPlus.new str_float beta h =
  (Raise (ValueError
            (format "The activation function {} expects beta > 0, but got beta = {}"
                    ["SoftPlus"%string; SoftPlus.str_number str_float beta])),
   mk_heap (<[fresh (dom (objects h)) := mk_object "SoftPlus" None]> (objects h))
           (arrays h)).
Proof.
  intros Hle. unfold SoftPlus.new, bind at 1, new_object.
  unfold bind.
  rewrite (init_raises _ _ _ (mk_object "SoftPlus" None));
    [reflexivity | exact Hle | apply lookup_insert_eq].
Qed.

Lemma new_returns (h : heap T) (beta : number T) :
  number_le0 beta = false ->
  SoftPlus.new str_float beta h =
  (Ok (fresh (dom (objects h))),
   mk_heap (<[fresh (dom (objects h)) := mk_object "SoftPlus" (Some beta)]> (objects h))
           (arrays h)).
Proof.
  intros Hle. unfold SoftPlus.new, bind at 1, new_object.
  unfold bind.
  rewrite (init_returns _ _ _ (mk_object "SoftPlus" None));
    [| exact Hle | apply lookup_insert_eq].
  simpl. unfold ret. now rewrite insert_insert_eq.
Qed.

Lemma fresh_object (h : heap T) : objects h !! fresh (dom (objects h)) = None.
Proof. apply not_elem_of_dom, is_fresh. Qed.

(** Whatever [beta], [SoftPlus(beta)] keeps every slot checked. *)
Lemma new_slots_checked (h : heap T) (beta : number T) :
  slots_checked h -> slots_checked (snd (SoftPlus.new str_float beta h)).
Proof.
  intros Hh. destruct (number_le0 beta) eqn:Hle.
  - rewrite new_raises by exact Hle. unfold slots_checked. simpl.
    intros l o b Hl Hb. destruct (decide (l = fresh (dom (objects h)))) as [-> | Hne].
    + rewrite lookup_insert_eq in Hl. injection Hl as <-. discriminate.
    + rewrite lookup_insert_ne in Hl by congruence. eauto.
  - rewrite new_returns by exact Hle. unfold slots_checked. simpl.
    intros l o b Hl Hb. destruct (decide (l = fresh (dom (objects h)))) as [-> | Hne].
    + rewrite lookup_insert_eq in Hl. injection Hl as <-.
      simpl in Hb. injection Hb as <-. exact Hle.
    + rewrite lookup_insert_ne in Hl by congruence. eauto.
Qed.

End ConstructorFacts.

Lemma number_le0_real (beta : number R) :
  number_le0 beta = bool_decide (to_scalar beta <= 0)%R.
Proof.
  destruct beta as [z | r]; simpl; [| reflexivity].
  destruct (Z.leb_spec z 0) as [Hz | Hz].
  - symmetry. apply bool_decide_eq_true. now apply IZR_le.
  - symmetry. apply bool_decide_eq_false. apply Rlt_not_le. now apply IZR_lt.
Qed.

Lemma instance_of_insert {T} (h : heap T) (l self : loc) (o : object T) (b : number T)
    (ars : gmap loc (ndarray T)) :
  instance_of (mk_heap (<[l := o]> (objects h)) ars) self b ->
  (self = l /\ ob_beta o = Some b) \/ (self <> l /\ instance_of h self b).
Proof.
  intros [cls Hs]. simpl in Hs.
  destruct (decide (self = l)) as [-> | Hne].
  - left. rewrite lookup_insert_eq in Hs. injection Hs as ->. auto.
  - right. rewrite lookup_insert_ne in Hs by congruence.
    split; [exact Hne | exists cls; exact Hs].
Qed.

(** C4.  [SoftPlus(beta)] raises, for [beta <= 0], the ValueError of
    [__init__] (the error the specification calls InvalidParameter): the
    expression itself raises, and the message names the type, [SoftPlus],
    and the value of [beta].  For [beta > 0] it returns a reference to an
    instance whose slot holds [beta]. *)
Theorem construction_checks_beta (str_float : R -> string) (beta : number R)
    (h : heap R) :
  ((to_scalar beta <= 0)%R ->
   exists msg,
     fst (SoftPlus.new str_float beta h) = Raise (ValueError msg) /\
     occurs_in "SoftPlus" msg /\
     occurs_in (SoftPlus.str_number str_float beta) msg) /\
  ((0 < to_scalar beta)%R ->
   exists self,
     fst (SoftPlus.new str_float beta h) = Ok self /\
     instance_of (snd (SoftPlus.new str_float beta h)) self beta).
Proof.
  split; intros Hb.
  - rewrite new_raises.
    + eexists. split; [reflexivity |]. apply message_mentions.
    + rewrite number_le0_real. now apply bool_decide_eq_true.
  - rewrite new_returns.
    + eexists. split; [reflexivity |]. exists "SoftPlus"%string. simpl.
      apply lookup_insert_eq.
    + rewrite number_le0_real. apply bool_decide_eq_false. lra.
Qed.

Lemma construction_checks_beta_witness :
  (exists msg,
     fst (SoftPlus.new (fun _ : R => "nan"%string) (Int 0) sample_heap)
     = Raise (ValueError msg) /\
     occurs_in "SoftPlus" msg /\ occurs_in "0" msg) /\
  (exists msg,
     fst (SoftPlus.new (fun _ : R => "nan"%string) (Int (-1)) sample_heap)
     = Raise (ValueError msg) /\
     occurs_in "SoftPlus" msg /\ occurs_in "-1" msg) /\
  (exists self,
     fst (SoftPlus.new (fun _ : R => "nan"%string) (Int 2) sample_heap) = Ok self /\
     instance_of (snd (SoftPlus.new (fun _ : R => "nan"%string) (Int 2) sample_heap))
                 self (Int 2)).
Proof.
  split; [| split].
  - apply (construction_checks_beta (fun _ => "nan"%string) (Int 0) sample_heap).
    simpl. lra.
  - apply (construction_checks_beta (fun _ => "nan"%string) (Int (-1)) sample_heap).
    simpl. lra.
  - apply (construction_checks_beta (fun _ => "nan"%string) (Int 2) sample_heap).
    simpl. lra.
Defined.

(** C10.  For [beta <= 0], [__init__] raises from the heap it was entered
    with: nothing was assigned when the error is raised.  So the failed
    [SoftPlus(beta)] hands no reference to its caller and leaves the heap it
    found plus one instance whose slot is empty: every instance with a number
    in its slot was there before, with that number.  Whatever [beta], if all
    the numbers in slots were positive before [SoftPlus(beta)], they all are
    after it. *)
Theorem failed_construction_assigns_nothing (str_float : R -> string) (h : heap R) :
  (forall beta : number R, (to_scalar beta <= 0)%R ->
     (forall self o, objects h !! self = Some o ->
        exists msg, SoftPlus.init str_float self beta h = (Raise (ValueError msg), h)) /\
     exists msg h',
       SoftPlus.new str_float beta h = (Raise (ValueError msg), h') /\
       objects h' = <[fresh (dom (objects h)) := mk_object "SoftPlus" None]> (objects h) /\
       objects h !! fresh (dom (objects h)) = None /\
       arrays h' = arrays h /\
       forall l b, instance_of h' l b -> instance_of h l b) /\
  (forall beta : number R,
     (forall l b, instance_of h l b -> (0 < to_scalar b)%R) ->
     forall l b, instance_of (snd (SoftPlus.new str_float beta h)) l b ->
                 (0 < to_scalar b)%R).
Proof.
  split.
  - intros beta Hb.
    assert (Hle : number_le0 beta = true).
    { rewrite number_le0_real. now apply bool_decide_eq_true. }
    split.
    + intros self o Hself. eexists. apply init_raises; eassumption.
    + do 2 eexists. split; [apply new_raises; exact Hle |].
      simpl. repeat split.
      * apply fresh_object.
      * intros l b Hl. apply instance_of_insert in Hl as [[_ Hl] | [_ Hl]];
          [discriminate | exact Hl].
  - intros beta Hh l b Hl.
    destruct (number_le0 beta) eqn:Hle.
    + rewrite new_raises in Hl by exact Hle.
      apply instance_of_insert in Hl as [[_ Hl] | [_ Hl]]; [discriminate | eauto].
    + rewrite new_returns in Hl by exact Hle.
      apply instance_of_insert in Hl as [[_ Hl] | [_ Hl]]; [| eauto].
      simpl in Hl. injection Hl as <-.
      rewrite number_le0_real in Hle. apply bool_decide_eq_false in Hle. lra.
Qed.

Lemma failed_construction_assigns_nothing_witness :
  exists msg h',
    SoftPlus.new (fun _ : R => "nan"%string) (Int (-1)) sample_heap
    = (Raise (ValueError msg), h') /\
    objects h' = <[fresh (dom (objects sample_heap)) := mk_object "SoftPlus" None]>
                   (objects sample_heap) /\
    objects sample_heap !! fresh (dom (objects sample_heap)) = None /\
    arrays h' = arrays sample_heap /\
    forall l b, instance_of h' l b -> instance_of sample_heap l b.
Proof.
  apply (failed_construction_assigns_nothing (fun _ => "nan"%string) sample_heap).
  simpl. lra.
Defined.

(** ** No side effects *)

Section FrameFacts.
Context {T : Type} `{Scalar T}.

Lemma invoke_returns (h : heap T) (self : loc) (beta : number T) (c : invocation) :
  instance_of h self beta ->
  is_Some (arrays h !! argument c) ->
  returns (invoke self c) h (fun _ h' => unchanged h h').
Proof.
  intros Hself [ax Hx]. destruct c as [x | x]; simpl in *.
  - eapply returns_weaken; [eapply call_method_returns; eassumption |].
    cbn beta. tauto.
  - eapply returns_weaken; [eapply gradient_method_returns; eassumption |].
    cbn beta. tauto.
Qed.

Lemma invoke_all_returns (self : loc) (beta : number T) (cs : list invocation) :
  forall h : heap T,
    instance_of h self beta ->
    (forall c, c ∈ cs -> is_Some (arrays h !! argument c)) ->
    returns (invoke_all self cs) h
      (fun rs h' => length rs = length cs /\ unchanged h h').
Proof.
  induction cs as [| c cs IH]; intros h Hself Hargs; cbn [invoke_all].
  - apply returns_ret. split; [reflexivity | apply unchanged_refl].
  - eapply returns_bind.
    + eapply invoke_returns; [exact Hself |]. apply Hargs. left.
    + cbn beta. intros r h1 U1.
      eapply returns_bind.
      * apply IH; [eapply unchanged_instance; eassumption |].
        intros c' Hc'. destruct (Hargs c') as [a Ha]; [now right |].
        exists a. eapply unchanged_array; eassumption.
      * cbn beta. intros rs h2 [Hlen U2].
        apply returns_ret. split; [simpl; congruence |].
        eapply unchanged_trans; eassumption.
Qed.

End FrameFacts.

(** C9.  Any number of calls of [__call__] and [gradient] on an instance, in
    any order and on any arrays, all return, and afterwards the instance
    holds the [beta] it held, no instance was created or changed, and every
    array of the heap the calls started from, the arguments among them, has
    the contents it had.  This holds for every scalar arithmetic. *)
Theorem methods_change_nothing {T : Type} `{Scalar T} (h : heap T) (self : loc)
    (beta : number T) (cs : list invocation) :
  instance_of h self beta ->
  (forall c, c ∈ cs -> is_Some (arrays h !! argument c)) ->
  returns (invoke_all self cs) h
    (fun rs h' =>
       length rs = length cs /\
       instance_of h' self beta /\
       objects h' = objects h /\
       forall x a, arrays h !! x = Some a -> arrays h' !! x = Some a).
Proof.
  intros Hself Hargs.
  eapply returns_weaken; [eapply invoke_all_returns; eassumption |].
  cbn beta. intros rs h' [Hlen U].
  split; [exact Hlen |].
  split; [eapply unchanged_instance; eassumption |].
  split; [apply U |].
  intros x a. apply unchanged_array. exact U.
Qed.

Lemma methods_change_nothing_witness :
  returns (invoke_all 1%positive [Value 1%positive; Gradient 1%positive; Value 1%positive])
    sample_heap
    (fun rs h' =>
       length rs = 3%nat /\
       instance_of h' 1%positive (Int 1) /\
       objects h' = objects sample_heap /\
       forall x a, arrays sample_heap !! x = Some a -> arrays h' !! x = Some a).
Proof.
  apply (methods_change_nothing sample_heap 1%positive (Int 1)
           [Value 1%positive; Gradient 1%positive; Value 1%positive]).
  - exists "SoftPlus"%string. reflexivity.
  - intros c Hc. exists (mk_ndarray [2%nat] [0%R; 1%R]).
    repeat (apply elem_of_cons in Hc as [-> | Hc]; [reflexivity |]).
    apply elem_of_nil in Hc. destruct Hc.
Defined.

(** ** Numeric bounds on [exp] and [ln] *)

Section Enclosures.
Local Open Scope R_scope.

Lemma exp_INR_mult (n : nat) (y : R) : exp (INR n * y) = exp y ^ n.
Proof.
  induction n as [| n IH].
  - simpl. rewrite Rmult_0_l. apply exp_0.
  - rewrite S_INR, Rmult_plus_distr_r, Rmult_1_l, exp_plus, IH. simpl. ring.
Qed.

Lemma sq_down_below (a : Z) (r : R) :
  (0 <= a)%Z -> IZR a / IZR (2 ^ 40) <= r ->
  (0 <= sq_down a)%Z /\ IZR (sq_down a) / IZR (2 ^ 40) <= r * r.
Proof.
  intros Ha Hr. 
  assert (HD : (0 < 2 ^ 40)%Z) by reflexivity.
  assert (HDr : 0 < IZR (2 ^ 40)) by (apply IZR_lt; exact HD).
  split.
  - unfold sq_down. apply Z.div_pos; [nia | exact HD].
  - assert (Hq : IZR (sq_down a) * IZR (2 ^ 40) <= IZR a * IZR a).
    { rewrite <- !mult_IZR. apply IZR_le. unfold sq_down.
      rewrite Z.mul_comm. apply Z.mul_div_le. exact HD. }
    assert (Ha' : 0 <= IZR a / IZR (2 ^ 40)).
    { apply Rmult_le_pos; [now apply IZR_le | left; now apply Rinv_0_lt_compat]. }
    apply Rle_trans with ((IZR a / IZR (2 ^ 40)) * (IZR a / IZR (2 ^ 40))).
    + apply Rmult_le_reg_r with (IZR (2 ^ 40) * IZR (2^40)); [nra |].
      replace (IZR (sq_down a) / IZR (2 ^ 40) * (IZR (2 ^ 40) * IZR (2 ^ 40)))
        with (IZR (sq_down a) * IZR (2 ^ 40)) by (field; lra).
      replace (IZR a / IZR (2 ^ 40) * (IZR a / IZR (2 ^ 40)) * (IZR (2 ^ 40) * IZR (2 ^ 40)))
        with (IZR a * IZR a) by (field; lra).
      nra.
    + nra.
Qed.

Lemma iter_sq_down_below (n : nat) (a : Z) (r : R) :
  (0 <= a)%Z -> IZR a / IZR (2 ^ 40) <= r ->
  (0 <= Nat.iter n sq_down a)%Z /\
  IZR (Nat.iter n sq_down a) / IZR (2 ^ 40) <= r ^ (2 ^ n).
Proof.
  intros Ha Hr. induction n as [| n [IH0 IH]].
  - simpl. split; [exact Ha | lra].
  - cbn [Nat.iter].
    destruct (sq_down_below _ _ IH0 IH) as [H0 H1].
    split; [exact H0 |].
    replace (2 ^ S n)%nat with (2 ^ n + 2 ^ n)%nat by (simpl; lia).
    rewrite pow_add. exact H1.
Qed.

(** [exp (2^14 * (p / q))] is at least what 14 squarings, each rounded
    down, make of [1 + p / q]. *)
Lemma exp_above (p q : Z) :
  (0 < q)%Z -> (0 <= q + p)%Z ->
  IZR (Nat.iter 14 sq_down (2 ^ 40 * (q + p) / q)%Z) / IZR (2 ^ 40)
  <= exp (IZR (2 ^ 14) * (IZR p / IZR q)).
Proof.
  intros Hq Hqp.
  assert (Hqr : 0 < IZR q) by now apply IZR_lt.
  replace (IZR (2 ^ 14)) with (INR (2 ^ 14))
    by (rewrite INR_IZR_INZ; f_equal).
  rewrite exp_INR_mult.
  apply iter_sq_down_below.
  - apply Z.div_pos; [nia | exact Hq].
  - apply Rle_trans with (1 + IZR p / IZR q); [| apply exp_ineq1_le].
    assert (Hd : IZR (2 ^ 40 * (q + p) / q)%Z * IZR q <= IZR (2 ^ 40) * (IZR q + IZR p)).
    { rewrite <- plus_IZR, <- !mult_IZR. apply IZR_le.
      rewrite Z.mul_comm. apply Z.mul_div_le. exact Hq. }
    assert (HD : 0 < IZR (2 ^ 40)) by (apply IZR_lt; reflexivity).
    apply Rmult_le_reg_r with (IZR (2 ^ 40) * IZR q); [nra |].
    replace (IZR (2 ^ 40 * (q + p) / q)%Z / IZR (2 ^ 40) * (IZR (2 ^ 40) * IZR q))
      with (IZR (2 ^ 40 * (q + p) / q)%Z * IZR q) by (field; lra).
    replace ((1 + IZR p / IZR q) * (IZR (2 ^ 40) * IZR q))
      with (IZR (2 ^ 40) * (IZR q + IZR p)) by (field; lra).
    exact Hd.
Qed.

Lemma ln_2_enclosure : 0.6931 < ln 2 < 0.6932.
Proof.
  assert (HD : 0 < IZR (2 ^ 40)) by (apply IZR_lt; reflexivity).
  split.
  - pose proof (exp_above (-6931) 163840000 eq_refl) as Hlow.
    assert (Hc : IZR (2 ^ 39) < IZR (Nat.iter 14 sq_down (2 ^ 40 * (163840000 + -6931) / 163840000)%Z))
      by (apply IZR_lt; reflexivity).
    assert (Hhalf : / 2 < exp (Ropp 0.6931)).
    { replace (Ropp 0.6931) with (IZR (2 ^ 14) * (IZR (-6931) / IZR 163840000))
        by (change (2 ^ 14)%Z with 16384%Z; lra).
      eapply Rlt_le_trans; [| apply Hlow; discriminate].
      replace (/ 2) with (IZR (2 ^ 39) / IZR (2 ^ 40)).
      - apply Rmult_lt_compat_r; [now apply Rinv_0_lt_compat | exact Hc].
      - change (2 ^ 40)%Z with (2 * 2 ^ 39)%Z. rewrite mult_IZR.
        assert (0 < IZR (2 ^ 39)) by (apply IZR_lt; reflexivity).
        field. lra. }
    apply exp_lt_inv. rewrite exp_ln by lra.
    rewrite exp_Ropp in Hhalf.
    pose proof (exp_pos 0.6931) as Hp.
    apply Rmult_lt_reg_r with (/ exp 0.6931); [now apply Rinv_0_lt_compat |].
    rewrite Rinv_r by lra. lra.
  - pose proof (exp_above 6932 163840000 eq_refl) as Hlow.
    assert (Hc : IZR (2 * 2 ^ 40) < IZR (Nat.iter 14 sq_down (2 ^ 40 * (163840000 + 6932) / 163840000)%Z))
      by (apply IZR_lt; reflexivity).
    assert (Htwo : 2 < exp 0.6932).
    { replace 0.6932 with (IZR (2 ^ 14) * (IZR 6932 / IZR 163840000))
        by (change (2 ^ 14)%Z with 16384%Z; lra).
      eapply Rlt_le_trans; [| apply Hlow; discriminate].
      replace 2 with (IZR (2 * 2 ^ 40) / IZR (2 ^ 40)) at 1.
      - apply Rmult_lt_compat_r; [now apply Rinv_0_lt_compat | exact Hc].
      - rewrite mult_IZR. field. lra. }
    apply exp_lt_inv. rewrite exp_ln by lra. exact Htwo.
Qed.

End Enclosures.

(** ** [beta = 2] at [0] *)

Lemma new_returns_instance {T : Type} `{Scalar T} (str_float : T -> string)
    (beta : number T) (h : heap T) :
  number_le0 beta = false ->
  returns (SoftPlus.new str_float beta) h
    (fun self h' => instance_of h' self beta /\ arrays h' = arrays h).
Proof.
  intros Hle. eexists _, _. split; [apply new_returns; exact Hle |].
  split; [| reflexivity].
  exists "SoftPlus"%string. simpl. apply lookup_insert_eq.
Qed.

Lemma call_two_at_zero (beta : number R) :
  to_scalar beta = 2%R ->
  SoftPlus.call beta (mk_ndarray [1%nat] [0%R]) = mk_ndarray [1%nat] [ln 2].
Proof.
  intros Hb. unfold SoftPlus.call, np_log, np_exp, scalar_add, scalar_mul, ufunc.
  simpl. rewrite Hb. do 3 f_equal.
  replace (2 * 0)%R with 0%R by lra. rewrite exp_0. lra.
Qed.

Lemma gradient_two_at_zero (beta : number R) :
  to_scalar beta = 2%R ->
  SoftPlus.gradient beta (mk_ndarray [1%nat] [0%R]) = mk_ndarray [1%nat] [1%R].
Proof.
  intros Hb.
  unfold SoftPlus.gradient, np_divide, np_exp, scalar_add, scalar_mul, ufunc.
  simpl. rewrite Hb. do 2 f_equal.
  replace (2 * 0)%R with 0%R by lra. rewrite exp_0. lra.
Qed.

(** C8.  With [beta = 2] (the [int] or the [float]), [SoftPlus(beta)]
    returns an instance whose [__call__] at the array [[0]] returns the array
    [[ln 2]] and whose [gradient] at [[0]] returns the array [[1]]; and
    [ln 2] is 0.6931 to four places. *)
Theorem beta_two_at_zero (str_float : R -> string) (beta : number R) (h : heap R)
    (x : loc) :
  to_scalar beta = 2%R ->
  arrays h !! x = Some (mk_ndarray [1%nat] [0%R]) ->
  returns (self <- SoftPlus.new str_float beta ;;
           v <- SoftPlus.call_method self x ;;
           g <- SoftPlus.gradient_method self x ;;
           ret (v, g)) h
    (fun vg h' =>
       arrays h' !! fst vg = Some (mk_ndarray [1%nat] [ln 2]) /\
       arrays h' !! snd vg = Some (mk_ndarray [1%nat] [1%R])) /\
  (0.6931 < ln 2 < 0.6932)%R.
Proof.
  intros Hb Hx. split; [| apply ln_2_enclosure].
  eapply returns_bind.
  { apply new_returns_instance. rewrite number_le0_real.
    apply bool_decide_eq_false. lra. }
  cbn beta. intros self h0 [Hself Harr].
  rewrite <- Harr in Hx.
  eapply returns_bind; [eapply call_method_returns; eassumption |].
  cbn beta. intros v h1 (U1 & Hv & _).
  eapply returns_bind.
  { eapply gradient_method_returns;
      [eapply unchanged_instance | eapply unchanged_array]; eassumption. }
  cbn beta. intros g h2 (U2 & Hg & _).
  apply returns_ret. simpl. split.
  - rewrite <- (call_two_at_zero beta Hb). eapply unchanged_array; eassumption.
  - rewrite <- (gradient_two_at_zero beta Hb). exact Hg.
Qed.

Lemma beta_two_at_zero_witness :
  returns (self <- SoftPlus.new (fun _ : R => "nan"%string) (Int 2) ;;
           v <- SoftPlus.call_method self 2%positive ;;
           g <- SoftPlus.gradient_method self 2%positive ;;
           ret (v, g))
          (mk_heap ∅ {[ 2%positive := mk_ndarray [1%nat] [0%R] ]})
    (fun vg h' =>
       arrays h' !! fst vg = Some (mk_ndarray [1%nat] [ln 2]) /\
       arrays h' !! snd vg = Some (mk_ndarray [1%nat] [1%R])) /\
  (0.6931 < ln 2 < 0.6932)%R.
Proof.
  apply (beta_two_at_zero (fun _ => "nan"%string) (Int 2)
           (mk_heap ∅ {[ 2%positive := mk_ndarray [1%nat] [0%R] ]}) 2%positive).
  - reflexivity.
  - reflexivity.
Defined.

(** ** [BroydenFletcherGoldfarbShanno] *)

Section AdapterFacts.

Lemma super_keywords_cases (kwargs : gmap string pyval) :
  match kwargs !! "method" with
  | None =>
      BroydenFletcherGoldfarbShanno.super_keywords kwargs
      = Ok (<["method" := PyStr "BFGS"]> kwargs)
  | Some _ =>
      exists msg, BroydenFletcherGoldfarbShanno.super_keywords kwargs
                  = Raise (TypeError msg)
  end.
Proof.
  unfold BroydenFletcherGoldfarbShanno.super_keywords. cbn [call_keywords].
  destruct (kwargs !! "method"); [eexists |]; reflexivity.
Qed.

(** The modelled base class, called with [method="BFGS"] and options that
    name no method, keeps the method and the options. *)
Lemma base_init_keeps (default_method objective m : pyval) (kwargs : gmap string pyval) :
  kwargs !! "method" = None ->
  ScipyBaseSolver.init default_method objective (<["method" := m]> kwargs)
  = ScipyBaseSolver.mk_solver objective m kwargs.
Proof.
  intros Hm. unfold ScipyBaseSolver.init.
  rewrite lookup_insert_eq, delete_insert_eq, delete_id by exact Hm.
  reflexivity.
Qed.

End AdapterFacts.

(** C5.  When the caller's options name no [method], [__init__] calls the
    base class, whatever it is, with the objective and with the keyword
    arguments [method="BFGS"] plus the options as they are; with the base
    class as the specification describes it, the adapter that results holds
    the method BFGS, the objective and the options.  When the options name a
    [method] themselves, the call of the base class is a TypeError (a keyword
    given twice) and there is no adapter.  So no options of the caller give
    an adapter with another method. *)
Theorem method_is_fixed {Solver : Type}
    (base_init : pyval -> gmap string pyval -> result Solver)
    (default_method objective : pyval) (kwargs : gmap string pyval) :
  match kwargs !! "method" with
  | None =>
      BroydenFletcherGoldfarbShanno.super_keywords kwargs
      = Ok (<["method" := PyStr "BFGS"]> kwargs) /\
      BroydenFletcherGoldfarbShanno.init base_init objective kwargs
      = base_init objective (<["method" := PyStr "BFGS"]> kwargs) /\
      BroydenFletcherGoldfarbShanno.init
        (fun o keywords => Ok (ScipyBaseSolver.init default_method o keywords))
        objective kwargs
      = Ok (ScipyBaseSolver.mk_solver objective (PyStr "BFGS") kwargs)
  | Some _ =>
      exists msg,
        BroydenFletcherGoldfarbShanno.init base_init objective kwargs
        = Raise (TypeError msg)
  end.
Proof.
  unfold BroydenFletcherGoldfarbShanno.init.
  pose proof (super_keywords_cases kwargs) as Hk.
  destruct (kwargs !! "method") as [v |] eqn:Hm.
  - destruct Hk as [msg ->]. exists msg. reflexivity.
  - rewrite Hk. repeat split.
    f_equal. now apply base_init_keeps.
Qed.

(** ** [SoftPlus] in float64 *)

Section Float64Facts.
Local Open Scope R_scope.

Lemma OVERFLOW_large : IZR (10 ^ 308) <= OVERFLOW.
Proof. apply IZR_le. now vm_compute. Qed.

Lemma OVERFLOW_pos : 1000 < OVERFLOW.
Proof.
  apply Rlt_le_trans with (IZR (10 ^ 308)); [| apply OVERFLOW_large].
  apply IZR_lt. reflexivity.
Qed.

Lemma in_range_finite (r : R) : - OVERFLOW < r < OVERFLOW -> in_range r = Finite r.
Proof.
  intros Hr. unfold in_range.
  destruct (decide (OVERFLOW <= r)) as [Hhi |]; [lra |].
  destruct (decide (r <= - OVERFLOW)) as [Hlo |]; [lra | reflexivity].
Qed.

Lemma in_range_positive (r : R) : 0 <= r -> r < OVERFLOW -> in_range r = Finite r.
Proof. intros H0 H1. apply in_range_finite. pose proof OVERFLOW_pos. lra. Qed.

Lemma in_range_overflow (r : R) : OVERFLOW <= r -> in_range r = PosInf.
Proof.
  intros Hr. unfold in_range.
  destruct (decide (OVERFLOW <= r)); [reflexivity | contradiction].
Qed.

Lemma one_is_finite : f_of_int (T := float64) 1 = Finite 1.
Proof. apply in_range_positive; [lra |]. pose proof OVERFLOW_pos. lra. Qed.

(** [e ^ 1000] is beyond the range. *)
Lemma exp_1000_overflows : OVERFLOW < exp 1000.
Proof.
  pose proof (exp_above 125 2048 eq_refl) as Hlow.
  assert (HD : 0 < IZR (2 ^ 40)) by (apply IZR_lt; reflexivity).
  replace 1000 with (IZR (2 ^ 14) * (IZR 125 / IZR 2048))
    by (change (2 ^ 14)%Z with 16384%Z; lra).
  eapply Rlt_le_trans; [| apply Hlow; discriminate].
  apply Rmult_lt_reg_r with (IZR (2 ^ 40)); [exact HD |].
  match goal with
  | |- _ < IZR ?a / _ * _ =>
      replace (IZR a / IZR (2 ^ 40) * IZR (2 ^ 40)) with (IZR a) by (field; lra)
  end.
  unfold OVERFLOW. rewrite <- mult_IZR. apply IZR_lt. now vm_compute.
Qed.

(** The elements of the two values computed from a finite element [x] when
    [exp (b * x)] leaves the range. *)
Lemma float64_items_overflow (b x : R) :
  0 < b ->
  - OVERFLOW < b * x < OVERFLOW ->
  OVERFLOW <= exp (b * x) ->
  f_log (f_add (f_of_int 1) (f_exp (f_mul (Finite b) (Finite x)))) = PosInf /\
  f_div (f_mul (Finite b) (f_exp (f_mul (Finite b) (Finite x))))
        (f_add (f_of_int 1) (f_exp (f_mul (Finite b) (Finite x))))
  = NaN.
Proof.
  intros Hb Hbx Hover.
  rewrite one_is_finite. cbn [f_mul f_exp f_add f_log f_div float64_scalar].
  cbn [f64_mul f64_exp]. rewrite (in_range_finite _ Hbx).
  cbn [f64_exp]. rewrite (in_range_overflow _ Hover).
  cbn [f64_add f64_log f64_mul]. unfold inf_times.
  destruct (decide (0 < b)); [| contradiction].
  split; reflexivity.
Qed.

End Float64Facts.

(** C3 fails at its own example: with [beta = 1], at the array [[1000.0]]
    the value of [__call__] is [[+inf]] and the value of [gradient] is
    [[nan]]. *)
Lemma large_input_overflows :
  SoftPlus.call (Int 1) (mk_ndarray [1%nat] [Finite 1000])
  = mk_ndarray [1%nat] [PosInf] /\
  SoftPlus.gradient (Int 1) (mk_ndarray [1%nat] [Finite 1000])
  = mk_ndarray [1%nat] [NaN].
Proof.
  assert (Hbx : (- OVERFLOW < 1 * 1000 < OVERFLOW)%R)
    by (pose proof OVERFLOW_pos; lra).
  assert (Hover : (OVERFLOW <= exp (1 * 1000))%R)
    by (rewrite Rmult_1_l; left; apply exp_1000_overflows).
  destruct (float64_items_overflow 1 1000 Rlt_0_1 Hbx Hover) as [Hv Hg].
  unfold SoftPlus.call, SoftPlus.gradient, np_divide, np_log, np_exp,
    scalar_add, scalar_mul, ufunc.
  cbn [data shape fmap list_fmap zip_with to_scalar].
  rewrite one_is_finite in *. rewrite Hv, Hg. split; reflexivity.
Qed.

(** ** Examples *)

(** [SoftPlus()] is [SoftPlus(1)]. *)
Example default_construction (str_float : R -> string) :
  SoftPlus.new str_float SoftPlus.default_beta (mk_heap ∅ ∅)
  = (Ok 1%positive, mk_heap {[ 1%positive := mk_object "SoftPlus" (Some (Int 1)) ]} ∅).
Proof. rewrite new_returns by reflexivity. reflexivity. Qed.

Example zero_is_rejected (str_float : R -> string) :
  fst (SoftPlus.new str_float (Int 0) sample_heap)
  = Raise (ValueError "The activation function SoftPlus expects beta > 0, but got beta = 0").
Proof. rewrite new_raises by reflexivity. reflexivity. Qed.

Example minus_one_is_rejected (str_float : R -> string) :
  fst (SoftPlus.new str_float (Int (-1)) sample_heap)
  = Raise (ValueError "The activation function SoftPlus expects beta > 0, but got beta = -1").
Proof. rewrite new_raises by reflexivity. reflexivity. Qed.

(** A subclass is named by its own name in the message. *)
Example subclass_is_named (str_float : R -> string) (h : heap R) (self : loc) :
  objects h !! self = Some (mk_object "SoftPlusVariant" None) ->
  SoftPlus.init str_float self (Int 0) h
  = (Raise (ValueError
              "The activation function SoftPlusVariant expects beta > 0, but got beta = 0"),
     h).
Proof.
  intros Hself. now rewrite (init_raises str_float h self (Int 0) _ eq_refl Hself).
Qed.

(** In float64, [nan <= 0] is false: the check of [__init__] lets NaN pass. *)
Example nan_passes_the_check : number_le0 (Float NaN) = false.
Proof. reflexivity. Qed.

(** A caller of the adapter that names a method of its own gets a
    TypeError, not a solver. *)
Example method_option_is_refused {Solver : Type}
    (base_init : pyval -> gmap string pyval -> result Solver) (objective : pyval) :
  BroydenFletcherGoldfarbShanno.init base_init objective
    {[ "method"%string := PyStr "CG" ]}
  = Raise (TypeError "__init__() got multiple values for keyword argument 'method'").
Proof. reflexivity. Qed.

Example options_pass_through (default_method objective callback : pyval) :
  BroydenFletcherGoldfarbShanno.init
    (fun o keywords => Ok (ScipyBaseSolver.init default_method o keywords))
    objective {[ "jac"%string := PyNone; "callback"%string := callback ]}
  = Ok (ScipyBaseSolver.mk_solver objective (PyStr "BFGS")
          {[ "jac"%string := PyNone; "callback"%string := callback ]}).
Proof.
  pose proof (method_option_absent := eq_refl :
    ({[ "jac"%string := PyNone; "callback"%string := callback ]} : gmap string pyval)
      !! "method"%string = None).
  unfold BroydenFletcherGoldfarbShanno.init,
    BroydenFletcherGoldfarbShanno.super_keywords. cbn [call_keywords].
  rewrite method_option_absent.
  now rewrite (base_init_keeps _ _ _ _ method_option_absent).
Qed.

(** * Further properties of the two classes *)

(** ** The shape of Soft+ over the reals *)

Section SoftPlusShape.
Local Open Scope R_scope.






End SoftPlusShape.

(** ** The methods and the constructor on the heap, in any arithmetic *)

(** X7.  In every scalar arithmetic, [__call__] and [gradient] return a
    reference that was not in use before the call, so the result is never
    the argument nor any other array the caller holds; it has the shape of
    the argument, and as many elements as its shape says if the argument
    has. *)
Theorem methods_return_new_arrays {T : Type} `{Scalar T} (h : heap T) (self x : loc)
    (beta : number T) (ax : ndarray T) :
  instance_of h self beta ->
  arrays h !! x = Some ax ->
  returns (SoftPlus.call_method self x) h
    (fun r h' =>
       arrays h !! r = None /\ r <> x /\
       exists y, arrays h' !! r = Some y /\ shape y = shape ax /\
                 (well_formed ax -> well_formed y)) /\
  returns (SoftPlus.gradient_method self x) h
    (fun r h' =>
       arrays h !! r = None /\ r <> x /\
       exists y, arrays h' !! r = Some y /\ shape y = shape ax /\
                 (well_formed ax -> well_formed y)).
Proof.
  intros Hself Hx. split.
  - eapply returns_weaken; [apply call_method_returns; eassumption |].
    cbn beta. intros r h' (_ & Hr & Hnew).
    split; [exact Hnew |]. split; [congruence |].
    exists (SoftPlus.call beta ax).
    split; [exact Hr |]. split; [apply call_shape | apply call_well_formed].
  - eapply returns_weaken; [apply gradient_method_returns; eassumption |].
    cbn beta. intros r h' (_ & Hr & Hnew).
    split; [exact Hnew |]. split; [congruence |].
    exists (SoftPlus.gradient beta ax).
    split; [exact Hr |]. split; [apply gradient_shape | apply gradient_well_formed].
Qed.

Lemma methods_return_new_arrays_witness :
  returns (SoftPlus.call_method 1%positive 1%positive) sample_heap
    (fun r h' =>
       arrays sample_heap !! r = None /\ r <> 1%positive /\
       exists y, arrays h' !! r = Some y /\ shape y = [2%nat] /\
                 (well_formed (mk_ndarray [2%nat] [0%R; 1%R]) -> well_formed y)) /\
  returns (SoftPlus.gradient_method 1%positive 1%positive) sample_heap
    (fun r h' =>
       arrays sample_heap !! r = None /\ r <> 1%positive /\
       exists y, arrays h' !! r = Some y /\ shape y = [2%nat] /\
                 (well_formed (mk_ndarray [2%nat] [0%R; 1%R]) -> well_formed y)).
Proof.
  apply (methods_return_new_arrays sample_heap 1%positive 1%positive (Int 1)
           (mk_ndarray [2%nat] [0%R; 1%R])).
  - exists "SoftPlus"%string. reflexivity.
  - reflexivity.
Defined.

(** X8.  On an instance whose slot was never assigned, [__call__] and
    [gradient] raise AttributeError at [self.beta], before any array is read
    or allocated: the heap is as it was, whatever the argument. *)
Theorem methods_need_beta {T : Type} `{Scalar T} (h : heap T) (self x : loc)
    (cls : string) :
  objects h !! self = Some (mk_object cls None) ->
  exists msg,
    SoftPlus.call_method self x h = (Raise (AttributeError msg), h) /\
    SoftPlus.gradient_method self x h = (Raise (AttributeError msg), h).
Proof.
  intros Hself. eexists.
  unfold SoftPlus.call_method, SoftPlus.gradient_method, bind, get_beta.
  rewrite Hself. split; reflexivity.
Qed.

Lemma methods_need_beta_witness :
  exists msg,
    SoftPlus.call_method 2%positive 1%positive
      (mk_heap (<[2%positive := mk_object "SoftPlus" None]> (objects sample_heap))
               (arrays sample_heap))
    = (Raise (AttributeError msg),
       mk_heap (<[2%positive := mk_object "SoftPlus" None]> (objects sample_heap))
               (arrays sample_heap)) /\
    SoftPlus.gradient_method 2%positive 1%positive
      (mk_heap (<[2%positive := mk_object "SoftPlus" None]> (objects sample_heap))
               (arrays sample_heap))
    = (Raise (AttributeError msg),
       mk_heap (<[2%positive := mk_object "SoftPlus" None]> (objects sample_heap))
               (arrays sample_heap)).
Proof.
  apply (methods_need_beta
           (mk_heap (<[2%positive := mk_object "SoftPlus" None]> (objects sample_heap))
                    (arrays sample_heap))
           2%positive 1%positive "SoftPlus"%string).
  reflexivity.
Defined.

(** X9.  A construction that passes the check returns a reference that was
    not in use, to an instance of type [SoftPlus] holding [beta]; it leaves
    every other instance and every array as they were. *)
Theorem construction_allocates_one_instance {T : Type} `{Scalar T}
    (str_float : T -> string) (beta : number T) (h : heap T) :
  number_le0 beta = false ->
  returns (SoftPlus.new str_float beta) h
    (fun self h' =>
       objects h !! self = None /\
       objects h' !! self = Some (mk_object "SoftPlus" (Some beta)) /\
       (forall l, l <> self -> objects h' !! l = objects h !! l) /\
       arrays h' = arrays h).
Proof.
  intros Hle. eexists _, _. split; [apply new_returns; exact Hle |].
  simpl. split; [apply fresh_object |].
  split; [apply lookup_insert_eq |].
  split; [| reflexivity].
  intros l Hl. apply lookup_insert_ne. congruence.
Qed.

Lemma construction_allocates_one_instance_witness :
  returns (SoftPlus.new (fun _ : R => "nan"%string) (Int 3)) sample_heap
    (fun self h' =>
       objects sample_heap !! self = None /\
       objects h' !! self = Some (mk_object "SoftPlus" (Some (Int 3))) /\
       (forall l, l <> self -> objects h' !! l = objects sample_heap !! l) /\
       arrays h' = arrays sample_heap).
Proof.
  apply (construction_allocates_one_instance (fun _ : R => "nan"%string) (Int 3)
           sample_heap).
  reflexivity.
Defined.

(** X10.  Two constructions give two instances: the references differ, and
    each instance holds the [beta] it was constructed with. *)
Theorem constructions_are_separate {T : Type} `{Scalar T} (str_float : T -> string)
    (beta1 beta2 : number T) (h : heap T) :
  number_le0 beta1 = false ->
  number_le0 beta2 = false ->
  returns (a <- SoftPlus.new str_float beta1 ;;
           b <- SoftPlus.new str_float beta2 ;;
           ret (a, b)) h
    (fun ab h' =>
       fst ab <> snd ab /\
       instance_of h' (fst ab) beta1 /\
       instance_of h' (snd ab) beta2).
Proof.
  intros H1 H2.
  apply returns_bind
    with (Q := fun a h1 => (Ok a, h1) = SoftPlus.new str_float beta1 h).
  { unfold returns. rewrite new_returns by exact H1.
    eexists _, _. split; reflexivity. }
  cbn beta. intros a h1 E1. rewrite new_returns in E1 by exact H1.
  injection E1 as -> ->.
  apply returns_bind
    with (Q := fun b h2 =>
                 (Ok b, h2)
                 = SoftPlus.new str_float beta2
                     (mk_heap (<[fresh (dom (objects h)) :=
                                   mk_object "SoftPlus" (Some beta1)]> (objects h))
                              (arrays h))).
  { unfold returns. rewrite new_returns by exact H2.
    eexists _, _. split; reflexivity. }
  cbn beta. intros b h2 E2. rewrite new_returns in E2 by exact H2.
  injection E2 as -> ->.
  apply returns_ret. simpl.
  set (a := fresh (dom (objects h))).
  set (m1 := <[a := mk_object "SoftPlus" (Some beta1)]> (objects h)).
  set (b := fresh (dom m1)).
  assert (Hab : a <> b).
  { intros Heq. pose proof (is_fresh (dom m1)) as Hfresh. fold b in Hfresh.
    apply Hfresh. rewrite <- Heq. apply elem_of_dom.
    exists (mk_object "SoftPlus" (Some beta1)). apply lookup_insert_eq. }
  split; [exact Hab |]. split.
  - exists "SoftPlus"%string. simpl.
    rewrite lookup_insert_ne by congruence. apply lookup_insert_eq.
  - exists "SoftPlus"%string. simpl. apply lookup_insert_eq.
Qed.

Lemma constructions_are_separate_witness :
  returns (a <- SoftPlus.new (fun _ : R => "nan"%string) (Int 1) ;;
           b <- SoftPlus.new (fun _ : R => "nan"%string) (Int 5) ;;
           ret (a, b)) sample_heap
    (fun ab h' =>
       fst ab <> snd ab /\
       instance_of h' (fst ab) (Int 1) /\
       instance_of h' (snd ab) (Int 5)).
Proof.
  apply (constructions_are_separate (fun _ : R => "nan"%string) (Int 1) (Int 5)
           sample_heap).
  - reflexivity.
  - reflexivity.
Defined.

(** X11.  The ValueError of [__init__] carries exactly the text
    "The activation function NAME expects beta > 0, but got beta = VALUE",
    where NAME is the name of the type of the instance (a subclass is named
    by its own name) and VALUE is [str(beta)]; and the instance keeps the
    slot it had. *)
Theorem error_message_text {T : Type} `{Scalar T} (str_float : T -> string)
    (h : heap T) (self : loc) (beta : number T) (o : object T) :
  number_le0 beta = true ->
  objects h !! self = Some o ->
  SoftPlus.init str_float self beta h
  = (Raise (ValueError
              ("The activation function " ++ ob_type o
               ++ " expects beta > 0, but got beta = "
               ++ SoftPlus.str_number str_float beta)%string), h).
Proof.
  intros Hle Hself.
  rewrite (init_raises str_float h self beta o Hle Hself).
  now rewrite format_message.
Qed.

Lemma error_message_text_witness :
  SoftPlus.init (fun _ : R => "nan"%string) 1%positive (Int (-4)) sample_heap
  = (Raise (ValueError
              ("The activation function " ++ "SoftPlus"
               ++ " expects beta > 0, but got beta = " ++ "-4")%string),
     sample_heap).
Proof.
  apply (error_message_text (fun _ : R => "nan"%string) sample_heap 1%positive
           (Int (-4)) (mk_object "SoftPlus" (Some (Int 1)))).
  - reflexivity.
  - reflexivity.
Defined.

(** ** Special values in float64 *)

Section Float64Special.
Local Open Scope R_scope.

Lemma zero_is_finite : f_of_int (T := float64) 0 = Finite 0.
Proof. apply in_range_positive; [lra |]. pose proof OVERFLOW_pos. lra. Qed.

Lemma in_range_cases (r : R) :
  (in_range r = PosInf /\ OVERFLOW <= r) \/
  (in_range r = NegInf /\ r <= - OVERFLOW) \/
  in_range r = Finite r.
Proof.
  unfold in_range.
  destruct (decide (OVERFLOW <= r)); [left; auto |].
  destruct (decide (r <= - OVERFLOW)); [right; left; auto | right; right; reflexivity].
Qed.

Lemma f64_mul_nan_r (x : float64) : f64_mul x NaN = NaN.
Proof. destruct x; reflexivity. Qed.

Lemma f64_add_nan_r (x : float64) : f64_add x NaN = NaN.
Proof. destruct x; reflexivity. Qed.

Lemma f64_add_posinf_r (r : R) : f64_add (Finite r) PosInf = PosInf.
Proof. reflexivity. Qed.

(** [log (1 + e)] for a finite [e >= 0]: [+inf] or a finite number [>= 0]. *)
Lemma log_one_plus_finite (e : R) :
  0 <= e ->
  f_log (f_add (f_of_int 1) (Finite e)) = PosInf \/
  exists v, f_log (f_add (f_of_int 1) (Finite e)) = Finite v /\ 0 <= v.
Proof.
  intros He. rewrite one_is_finite. cbn [f_add f_log float64_scalar f64_add].
  destruct (in_range_cases (1 + e)) as [[-> _] | [[_ Hneg] | ->]].
  - left. reflexivity.
  - pose proof OVERFLOW_pos. lra.
  - right. cbn [f64_log].
    destruct (decide (1 + e < 0)); [lra |].
    destruct (decide (1 + e = 0)); [lra |].
    eexists. split; [reflexivity |].
    rewrite <- ln_1. destruct (Req_dec_T e 0) as [-> | Hne].
    + right. f_equal. lra.
    + left. apply ln_increasing; lra.
Qed.

End Float64Special.

(** X12.  In float64 a NaN element of the argument gives a NaN element of
    the value of [__call__] and of the value of [gradient], whatever
    [beta]. *)
Theorem nan_propagates (beta : number float64) (x : ndarray float64) (i : nat) :
  data x !! i = Some NaN ->
  data (SoftPlus.call beta x) !! i = Some NaN /\
  data (SoftPlus.gradient beta x) !! i = Some NaN.
Proof.
  intros Hi. rewrite call_lookup, gradient_lookup, Hi.
  cbn [fmap option_fmap option_map f_mul f_exp f_add f_log f_div float64_scalar].
  rewrite f64_mul_nan_r. cbn [f64_exp]. rewrite f64_mul_nan_r, f64_add_nan_r.
  split; reflexivity.
Qed.

Lemma nan_propagates_witness :
  data (SoftPlus.call (Int 1) (mk_ndarray [2%nat] [Finite 0; NaN])) !! 1%nat = Some NaN /\
  data (SoftPlus.gradient (Int 1) (mk_ndarray [2%nat] [Finite 0; NaN])) !! 1%nat
  = Some NaN.
Proof.
  apply (nan_propagates (Int 1) (mk_ndarray [2%nat] [Finite 0; NaN]) 1).
  reflexivity.
Defined.

(** X13.  In float64, with a finite [beta > 0], at an element [+inf] of the
    argument the value of [__call__] is [+inf] and the value of [gradient]
    is NaN, not [beta]. *)
Theorem positive_infinity_argument (beta : number float64) (b : R)
    (x : ndarray float64) (i : nat) :
  to_scalar beta = Finite b ->
  (0 < b)%R ->
  data x !! i = Some PosInf ->
  data (SoftPlus.call beta x) !! i = Some PosInf /\
  data (SoftPlus.gradient beta x) !! i = Some NaN.
Proof.
  intros Hbeta Hb Hi.
  assert (Hpos : inf_times true b = PosInf).
  { unfold inf_times. destruct (decide (0 < b)%R); [reflexivity | contradiction]. }
  rewrite call_lookup, gradient_lookup, Hi, Hbeta, one_is_finite.
  cbn [fmap option_fmap option_map f_mul f_exp f_add f_log f_div float64_scalar
       f64_mul f64_exp].
  rewrite Hpos. cbn [f64_exp f64_add f64_log f64_mul f64_div].
  split; reflexivity.
Qed.

Lemma positive_infinity_argument_witness :
  data (SoftPlus.call (Int 1) (mk_ndarray [2%nat] [PosInf; NegInf])) !! 0%nat
  = Some PosInf /\
  data (SoftPlus.gradient (Int 1) (mk_ndarray [2%nat] [PosInf; NegInf])) !! 0%nat
  = Some NaN.
Proof.
  apply (positive_infinity_argument (Int 1) 1 (mk_ndarray [2%nat] [PosInf; NegInf]) 0).
  - exact one_is_finite.
  - lra.
  - reflexivity.
Defined.

(** X14.  In float64, with a finite [beta > 0], at an element [-inf] of the
    argument the value of [__call__] and the value of [gradient] are both
    0. *)
Theorem negative_infinity_argument (beta : number float64) (b : R)
    (x : ndarray float64) (i : nat) :
  to_scalar beta = Finite b ->
  (0 < b)%R ->
  data x !! i = Some NegInf ->
  data (SoftPlus.call beta x) !! i = Some (Finite 0) /\
  data (SoftPlus.gradient beta x) !! i = Some (Finite 0).
Proof.
  intros Hbeta Hb Hi.
  assert (Hneg : inf_times false b = NegInf).
  { unfold inf_times. destruct (decide (0 < b)%R); [reflexivity | contradiction]. }
  rewrite call_lookup, gradient_lookup, Hi, Hbeta, one_is_finite.
  cbn [fmap option_fmap option_map f_mul f_exp f_add f_log f_div float64_scalar
       f64_mul f64_exp].
  rewrite Hneg. cbn [f64_exp f64_add f64_mul].
  pose proof OVERFLOW_pos as HO.
  rewrite (in_range_positive (1 + 0)) by lra.
  rewrite (in_range_positive (b * 0)) by lra.
  cbn [f64_log f64_div].
  destruct (decide (1 + 0 < 0)%R); [lra |].
  destruct (decide (1 + 0 = 0)%R); [lra |].
  rewrite (in_range_positive (b * 0 / (1 + 0))) by (rewrite Rmult_0_r; lra).
  replace (1 + 0)%R with 1%R by lra. rewrite ln_1.
  replace (b * 0 / 1)%R with 0%R by lra.
  split; reflexivity.
Qed.

Lemma negative_infinity_argument_witness :
  data (SoftPlus.call (Int 1) (mk_ndarray [2%nat] [PosInf; NegInf])) !! 1%nat
  = Some (Finite 0) /\
  data (SoftPlus.gradient (Int 1) (mk_ndarray [2%nat] [PosInf; NegInf])) !! 1%nat
  = Some (Finite 0).
Proof.
  apply (negative_infinity_argument (Int 1) 1 (mk_ndarray [2%nat] [PosInf; NegInf]) 1).
  - exact one_is_finite.
  - lra.
  - reflexivity.
Defined.

(** X15.  In float64 the check of [__init__] does not reject NaN or [+inf]:
    [SoftPlus(nan)] and [SoftPlus(inf)] return instances holding them; and
    with [beta = nan] every element of the values of [__call__] and of
    [gradient] is NaN. *)
Theorem nan_steepness_is_accepted (str_float : float64 -> string) (h : heap float64) :
  returns (SoftPlus.new str_float (Float NaN)) h
    (fun self h' => instance_of h' self (Float NaN)) /\
  returns (SoftPlus.new str_float (Float PosInf)) h
    (fun self h' => instance_of h' self (Float PosInf)) /\
  forall (x : ndarray float64) (i : nat),
    data (SoftPlus.call (Float NaN) x) !! i = (fun _ => NaN) <$> data x !! i /\
    data (SoftPlus.gradient (Float NaN) x) !! i = (fun _ => NaN) <$> data x !! i.
Proof.
  split; [| split].
  - eapply returns_weaken; [apply new_returns_instance; reflexivity |].
    cbn beta. tauto.
  - eapply returns_weaken; [apply new_returns_instance |].
    + cbn [number_le0 f_le float64_scalar]. rewrite zero_is_finite. reflexivity.
    + cbn beta. tauto.
  - intros x i. rewrite call_lookup, gradient_lookup.
    destruct (data x !! i) as [xi |]; [| split; reflexivity].
    cbn [fmap option_fmap option_map to_scalar f_mul f_exp f_add f_log f_div
         float64_scalar f64_mul f64_exp].
    rewrite f64_add_nan_r. split; reflexivity.
Qed.

(** X16.  In float64, for a finite [beta] and a finite element of the
    argument, the element of the value of [__call__] is [+inf] or a finite
    number that is not negative: it is never NaN and never [-inf]. *)
Theorem call_is_never_nan (beta : number float64) (b : R) (x : ndarray float64)
    (i : nat) (xi : R) :
  to_scalar beta = Finite b ->
  data x !! i = Some (Finite xi) ->
  data (SoftPlus.call beta x) !! i = Some PosInf \/
  exists v, data (SoftPlus.call beta x) !! i = Some (Finite v) /\ (0 <= v)%R.
Proof.
  intros Hbeta Hi. rewrite call_lookup, Hi, Hbeta.
  cbn [fmap option_fmap option_map].
  assert (Hwrap : forall y : float64,
             (y = PosInf \/ exists v, y = Finite v /\ (0 <= v)%R) ->
             Some y = Some PosInf \/ exists v, Some y = Some (Finite v) /\ (0 <= v)%R).
  { intros y [-> | (v & -> & Hv)]; [left; reflexivity | right; eauto]. }
  apply Hwrap.
  change (f_mul (Finite b) (Finite xi)) with (in_range (b * xi)).
  destruct (in_range_cases (b * xi)) as [[-> _] | [[-> _] | ->]].
  - left. rewrite one_is_finite. reflexivity.
  - change (f_exp NegInf) with (Finite 0). apply log_one_plus_finite. lra.
  - change (f_exp (Finite (b * xi))) with (in_range (exp (b * xi))).
    pose proof (exp_pos (b * xi)) as He. pose proof OVERFLOW_pos as HO.
    destruct (in_range_cases (exp (b * xi))) as [[-> _] | [[_ Hneg] | ->]].
    + left. rewrite one_is_finite. reflexivity.
    + lra.
    + apply log_one_plus_finite. lra.
Qed.

Lemma call_is_never_nan_witness :
  data (SoftPlus.call (Int 1) (mk_ndarray [1%nat] [Finite 1000])) !! 0%nat = Some PosInf \/
  exists v,
    data (SoftPlus.call (Int 1) (mk_ndarray [1%nat] [Finite 1000])) !! 0%nat
    = Some (Finite v) /\ (0 <= v)%R.
Proof.
  apply (call_is_never_nan (Int 1) 1 (mk_ndarray [1%nat] [Finite 1000]) 0 1000).
  - exact one_is_finite.
  - reflexivity.
Defined.

(** ** Re-initialisation *)

(** X18.  [__init__] called again on an instance, with a [beta] that passes
    the check, replaces the steepness: the instance keeps its type, the
    other instances and the arrays are as they were, and a call of
    [__call__] after it computes with the new [beta]. *)
Theorem reinitialisation_replaces_beta {T : Type} `{Scalar T} (str_float : T -> string)
    (h : heap T) (self x : loc) (old beta : number T) (cls : string) (ax : ndarray T) :
  objects h !! self = Some (mk_object cls (Some old)) ->
  number_le0 beta = false ->
  arrays h !! x = Some ax ->
  returns (u <- SoftPlus.init str_float self beta ;; SoftPlus.call_method self x) h
    (fun r h' =>
       arrays h' !! r = Some (SoftPlus.call beta ax) /\
       objects h' = <[self := mk_object cls (Some beta)]> (objects h)).
Proof.
  intros Hself Hle Hx.
  apply returns_bind
    with (Q := fun _ h1 =>
                 h1 = mk_heap (<[self := mk_object cls (Some beta)]> (objects h))
                              (arrays h)).
  - unfold returns. rewrite (init_returns str_float h self beta _ Hle Hself).
    eexists _, _. split; reflexivity.
  - cbn beta. intros _ h1 ->.
    eapply returns_weaken.
    + eapply call_method_returns with (beta := beta) (ax := ax).
      * exists cls. simpl. apply lookup_insert_eq.
      * exact Hx.
    + cbn beta. intros r h' ([Hobj _] & Hr & _). split; [exact Hr | exact Hobj].
Qed.

Lemma reinitialisation_replaces_beta_witness :
  returns (u <- SoftPlus.init (fun _ : R => "nan"%string) 1%positive (Int 7) ;;
           SoftPlus.call_method 1%positive 1%positive) sample_heap
    (fun r h' =>
       arrays h' !! r = Some (SoftPlus.call (Int 7) (mk_ndarray [2%nat] [0%R; 1%R])) /\
       objects h' = <[1%positive := mk_object "SoftPlus" (Some (Int 7))]>
                      (objects sample_heap)).
Proof.
  apply (reinitialisation_replaces_beta (fun _ : R => "nan"%string) sample_heap
           1%positive 1%positive (Int 1) (Int 7) "SoftPlus"%string
           (mk_ndarray [2%nat] [0%R; 1%R])).
  - reflexivity.
  - reflexivity.
  - reflexivity.
Defined.

(** * The two methods on float64 arrays *)

(** ** The error of the two formulas under rounding *)

Section RoundingAnalysis.
Local Open Scope R_scope.

Lemma Rabs_le_both (a c : R) : Rabs a <= c -> - c <= a <= c.
Proof. unfold Rabs. destruct (Rcase_abs a); lra. Qed.











End RoundingAnalysis.

(** ** The range of [exp] *)

Section RangeFacts.
Local Open Scope R_scope.



(** [e ^ 900] is beyond it. *)
Lemma exp_900_overflows : OVERFLOW < exp 900.
Proof.
  pose proof (exp_above 225 4096 eq_refl) as Hlow.
  assert (HD : 0 < IZR (2 ^ 40)) by (apply IZR_lt; reflexivity).
  replace 900 with (IZR (2 ^ 14) * (IZR 225 / IZR 4096))
    by (change (2 ^ 14)%Z with 16384%Z; lra).
  eapply Rlt_le_trans; [| apply Hlow; discriminate].
  apply Rmult_lt_reg_r with (IZR (2 ^ 40)); [exact HD |].
  match goal with
  | |- _ < IZR ?a / _ * _ =>
      replace (IZR a / IZR (2 ^ 40) * IZR (2 ^ 40)) with (IZR a) by (field; lra)
  end.
  unfold OVERFLOW. rewrite <- mult_IZR. apply IZR_lt. now vm_compute.
Qed.

End RangeFacts.

(** ** The steps of the two methods in [binary64] *)

Section Binary64Facts.
Local Open Scope R_scope.
Variables rnd libm_exp libm_log : R -> R.
Local Abbreviation B := (binary64 rnd libm_exp libm_log).
Local Abbreviation value_item b x :=
  (b64_log libm_log
     (b64_add rnd (rounded rnd 1) (b64_exp libm_exp (b64_mul rnd (Finite b) x)))).
Local Abbreviation gradient_item b x :=
  (b64_div rnd
     (b64_mul rnd (Finite b) (b64_exp libm_exp (b64_mul rnd (Finite b) x)))
     (b64_add rnd (rounded rnd 1) (b64_exp libm_exp (b64_mul rnd (Finite b) x)))).

Lemma rounded_finite (r : R) :
  - OVERFLOW < r < OVERFLOW -> rounded rnd r = Finite (rnd r).
Proof.
  intros Hr. unfold rounded.
  destruct (decide (OVERFLOW <= r)) as [Hhi |]; [lra |].
  destruct (decide (r <= - OVERFLOW)) as [Hlo |]; [lra | reflexivity].
Qed.

Lemma rounded_overflow (r : R) : OVERFLOW <= r -> rounded rnd r = PosInf.
Proof.
  intros Hr. unfold rounded.
  destruct (decide (OVERFLOW <= r)); [reflexivity | contradiction].
Qed.

Lemma rounded_underflow (r : R) : r <= - OVERFLOW -> rounded rnd r = NegInf.
Proof.
  intros Hr. unfold rounded. pose proof OVERFLOW_pos.
  destruct (decide (OVERFLOW <= r)); [lra |].
  destruct (decide (r <= - OVERFLOW)); [reflexivity | contradiction].
Qed.

Lemma rounded_one : rounded rnd 1 = Finite (rnd 1).
Proof. apply rounded_finite. pose proof OVERFLOW_pos. lra. Qed.

(** The element of [__call__]'s value at an element of [x]. *)
Lemma call_item (beta : number float64) (b : R) (x : ndarray float64) (i : nat)
    (xi : float64) :
  @to_scalar float64 B beta = Finite b ->
  data x !! i = Some xi ->
  data (@SoftPlus.call float64 B beta x) !! i = Some (value_item b xi).
Proof.
  intros Hb Hx. rewrite (@call_lookup float64 B), Hx, Hb. reflexivity.
Qed.

(** The element of [gradient]'s value at an element of [x]. *)
Lemma gradient_item_at (beta : number float64) (b : R) (x : ndarray float64) (i : nat)
    (xi : float64) :
  @to_scalar float64 B beta = Finite b ->
  data x !! i = Some xi ->
  data (@SoftPlus.gradient float64 B beta x) !! i = Some (gradient_item b xi).
Proof.
  intros Hb Hx. rewrite (@gradient_lookup float64 B), Hx, Hb. reflexivity.
Qed.

Section Accurate.
Variable eps : R.
Hypothesis Hacc : accurate rnd libm_exp libm_log eps.




(** Where [beta * x] is 1000 or more, [np.exp] overflows: [__call__] gives
    [+inf] and [gradient] gives [nan]. *)
Lemma items_overflow (b xi : R) :
  0 < b ->
  1000 <= b * xi ->
  value_item b (Finite xi) = PosInf /\ gradient_item b (Finite xi) = NaN.
Proof.
  intros Hb Hz.
  destruct Hacc as [Heps Hone Hrnd Hexp Hlog].
  assert (He : b64_exp libm_exp (b64_mul rnd (Finite b) (Finite xi)) = PosInf).
  { cbn [b64_mul]. unfold rounded.
    destruct (decide (OVERFLOW <= b * xi)) as [| Hhi]; [reflexivity |].
    destruct (decide (b * xi <= - OVERFLOW)) as [Hlo | Hlo];
      [pose proof OVERFLOW_pos; lra |].
    assert (Hr : - OVERFLOW < b * xi < OVERFLOW) by lra.
    pose proof (Hrnd _ Hr) as HZ. apply Rabs_le_both in HZ.
    rewrite (Rabs_right (b * xi)) in HZ by lra.
    assert (H900 : 900 <= rnd (b * xi)) by nra.
    cbn [b64_exp].
    destruct (decide (OVERFLOW <= exp (rnd (b * xi)))) as [| Hne]; [reflexivity |].
    exfalso. apply Hne. pose proof exp_900_overflows.
    destruct (Rle_lt_or_eq_dec _ _ H900) as [Hlt | <-]; [| lra].
    pose proof (exp_increasing _ _ Hlt). lra. }
  rewrite He, rounded_one. cbn. unfold inf_times.
  destruct (decide (0 < b)); [| contradiction].
  split; reflexivity.
Qed.

End Accurate.

Section Ordered.
Hypothesis Hord : order_preserving rnd libm_exp libm_log.

Lemma le64_finite (a c : R) : a <= c -> le64 (Finite a) (Finite c).
Proof. intros H. unfold le64. cbn. now apply bool_decide_eq_true. Qed.

(** [np.exp] of a rounded number is [+inf] or a finite number that is not
    negative. *)
Lemma exp_step_cases (r : R) :
  b64_exp libm_exp (rounded rnd r) = PosInf \/
  exists E : R, b64_exp libm_exp (rounded rnd r) = Finite E /\ 0 <= E.
Proof.
  destruct Hord as [Hrnd H0 H1 Hexp Hsign Hlog Hlog1].
  unfold rounded.
  destruct (decide (OVERFLOW <= r)); [now left |].
  destruct (decide (r <= - OVERFLOW)).
  - right. exists 0. split; [reflexivity | lra].
  - cbn. destruct (decide (OVERFLOW <= exp (rnd r))); [now left |].
    right. eexists. split; [reflexivity | apply Hsign].
Qed.

Lemma exp_step_monotone (r s : R) :
  r <= s ->
  le64 (b64_exp libm_exp (rounded rnd r)) (b64_exp libm_exp (rounded rnd s)).
Proof.
  intros Hrs.
  destruct Hord as [Hrnd H0 H1 Hexp Hsign Hlog Hlog1].
  pose proof OVERFLOW_pos as HO.
  unfold rounded.
  destruct (decide (OVERFLOW <= r)) as [Hr1 | Hr1].
  { destruct (decide (OVERFLOW <= s)); [reflexivity | lra]. }
  destruct (decide (OVERFLOW <= s)) as [Hs1 | Hs1].
  { destruct (decide (r <= - OVERFLOW)); cbn; [reflexivity |].
    destruct (decide (OVERFLOW <= exp (rnd r))); reflexivity. }
  destruct (decide (r <= - OVERFLOW)) as [Hr2 | Hr2].
  { destruct (decide (s <= - OVERFLOW)); cbn; [apply le64_finite; lra |].
    destruct (decide (OVERFLOW <= exp (rnd s))); [reflexivity |].
    apply le64_finite, Hsign. }
  destruct (decide (s <= - OVERFLOW)) as [Hs2 | Hs2]; [lra |].
  cbn. pose proof (Hrnd r s Hrs) as HZ.
  assert (HeZ : exp (rnd r) <= exp (rnd s)).
  { destruct (Rle_lt_or_eq_dec _ _ HZ) as [Hlt | ->]; [| lra].
    left. now apply exp_increasing. }
  destruct (decide (OVERFLOW <= exp (rnd r))) as [He1 | He1].
  { destruct (decide (OVERFLOW <= exp (rnd s))); [reflexivity | lra]. }
  destruct (decide (OVERFLOW <= exp (rnd s))); [reflexivity |].
  apply le64_finite, Hexp, HZ.
Qed.

(** [np.log(1 + e)] at a finite [e] that is not negative. *)
Lemma log_step_finite (E : R) :
  0 <= E ->
  b64_log libm_log (b64_add rnd (rounded rnd 1) (Finite E))
  = (if decide (OVERFLOW <= 1 + E) then PosInf
     else Finite (libm_log (rnd (1 + E)))) /\
  1 <= rnd (1 + E).
Proof.
  intros HE.
  destruct Hord as [Hrnd H0 H1 Hexp Hsign Hlog Hlog1].
  pose proof OVERFLOW_pos as HO.
  assert (HS : 1 <= rnd (1 + E)) by (rewrite <- H1 at 1; apply Hrnd; lra).
  split; [| exact HS].
  rewrite rounded_one, H1. cbn. unfold rounded.
  destruct (decide (OVERFLOW <= 1 + E)); [reflexivity |].
  destruct (decide (1 + E <= - OVERFLOW)); [lra |].
  cbn. destruct (decide (rnd (1 + E) < 0)); [lra |].
  destruct (decide (rnd (1 + E) = 0)); [lra | reflexivity].
Qed.

Lemma log_step_infinite :
  b64_log libm_log (b64_add rnd (rounded rnd 1) PosInf) = PosInf.
Proof. rewrite rounded_one. reflexivity. Qed.

Lemma log_step_sign (e : float64) :
  (e = PosInf \/ exists E : R, e = Finite E /\ 0 <= E) ->
  le64 (Finite 0) (b64_log libm_log (b64_add rnd (rounded rnd 1) e)).
Proof.
  intros [-> | (E & -> & HE)].
  - rewrite log_step_infinite. reflexivity.
  - destruct (log_step_finite E HE) as [-> HS].
    destruct (decide (OVERFLOW <= 1 + E)); [reflexivity |].
    apply le64_finite.
    destruct Hord as [Hrnd H0 H1 Hexp Hsign Hlog Hlog1].
    rewrite <- Hlog1. apply Hlog. lra.
Qed.

Lemma log_step_monotone (e e' : float64) :
  (e = PosInf \/ exists E : R, e = Finite E /\ 0 <= E) ->
  (e' = PosInf \/ exists E : R, e' = Finite E /\ 0 <= E) ->
  le64 e e' ->
  le64 (b64_log libm_log (b64_add rnd (rounded rnd 1) e))
       (b64_log libm_log (b64_add rnd (rounded rnd 1) e')).
Proof.
  intros [-> | (E & -> & HE)] [-> | (E' & -> & HE')] Hle.
  - rewrite log_step_infinite. reflexivity.
  - discriminate Hle.
  - rewrite log_step_infinite.
    destruct (log_step_finite E HE) as [-> _].
    destruct (decide (OVERFLOW <= 1 + E)); reflexivity.
  - destruct (log_step_finite E HE) as [-> HS].
    destruct (log_step_finite E' HE') as [-> HS'].
    unfold le64 in Hle. cbn in Hle. apply bool_decide_eq_true in Hle.
    destruct (decide (OVERFLOW <= 1 + E)) as [H1 | H1].
    { destruct (decide (OVERFLOW <= 1 + E')); [reflexivity | lra]. }
    destruct (decide (OVERFLOW <= 1 + E')); [reflexivity |].
    apply le64_finite.
    destruct Hord as [Hrnd H0 H1' Hexp Hsign Hlog Hlog1].
    apply Hlog. split; [lra | apply Hrnd; lra].
Qed.

(** Every element of [__call__]'s value at a finite element is [+inf] or a
    finite number that is not negative, and a larger element gives a value
    that is not smaller. *)
Lemma value_item_ordered (b xi yi : R) :
  0 < b ->
  xi <= yi ->
  le64 (Finite 0) (value_item b (Finite xi)) /\
  le64 (value_item b (Finite xi)) (value_item b (Finite yi)).
Proof.
  intros Hb Hxy. cbn [b64_mul].
  assert (Hz : b * xi <= b * yi) by nra.
  split.
  - apply log_step_sign, exp_step_cases.
  - apply log_step_monotone; [apply exp_step_cases .. |].
    now apply exp_step_monotone.
Qed.


End Ordered.

End Binary64Facts.

(** ** Arithmetic with no rounding error *)

Section ExactArithmetic.
Local Open Scope R_scope.

(** Arithmetic with no rounding error is accurate, for any [eps]. *)
Lemma exact_is_accurate (eps : R) :
  0 <= eps <= 1 / 16 -> accurate (fun r => r) exp ln eps.
Proof.
  intros Heps.
  assert (H0 : forall r a : R, 0 <= a -> Rabs (r - r) <= eps * a).
  { intros r a Ha. rewrite Rminus_diag, Rabs_R0. nra. }
  split; [exact Heps | reflexivity | ..].
  - intros r _. apply H0. pose proof (Rabs_pos r). lra.
  - intros r _. apply H0. pose proof (exp_pos r). lra.
  - intros s _. apply H0. pose proof (Rabs_pos (ln s)). lra.
Qed.

Lemma exact_is_order_preserving : order_preserving (fun r => r) exp ln.
Proof.
  split; try reflexivity.
  - auto.
  - intros r s [Hlt | ->]; [left; now apply exp_increasing | lra].
  - intros r. left. apply exp_pos.
  - intros r s [Hr [Hlt | ->]]; [left; now apply ln_increasing | lra].
  - apply ln_1.
Qed.

(** [float64_scalar] is [binary64] with no rounding error. *)
Lemma exact_operations :
  (forall z : Z, rounded (fun r => r) (IZR z) = f_of_int z) /\
  (forall x y : float64, b64_add (fun r => r) x y = f_add x y) /\
  (forall x y : float64, b64_mul (fun r => r) x y = f_mul x y) /\
  (forall x y : float64, b64_div (fun r => r) x y = f_div x y) /\
  (forall x : float64, b64_exp exp x = f_exp x) /\
  (forall x : float64, b64_log ln x = f_log x).
Proof.
  repeat split; try reflexivity.
  intros [r | | |]; try reflexivity.
  cbn. unfold in_range. pose proof (exp_pos r). pose proof OVERFLOW_pos.
  destruct (decide (OVERFLOW <= exp r)); [reflexivity |].
  destruct (decide (exp r <= - OVERFLOW)); [lra | reflexivity].
Qed.

End ExactArithmetic.

(** ** What the two methods return on float64 arrays *)





(** C3, as the code has it.  The two methods evaluate the formulas as they
    are written: for a finite [beta = b > 0] and an element with
    [b * x_i >= 1000] (such as [x = 1000] with [beta = 1]), [np.exp]
    overflows, the element of [__call__]'s value is [+inf] and the element
    of [gradient]'s value is NaN. *)
Theorem large_products_overflow (rnd libm_exp libm_log : R -> R) (eps : R)
    (beta : number float64) (b : R) (x : ndarray float64) (i : nat) (xi : R) :
  accurate rnd libm_exp libm_log eps ->
  @to_scalar float64 (binary64 rnd libm_exp libm_log) beta = Finite b ->
  (0 < b)%R ->
  data x !! i = Some (Finite xi) ->
  (1000 <= b * xi)%R ->
  data (@SoftPlus.call float64 (binary64 rnd libm_exp libm_log) beta x) !! i
  = Some PosInf /\
  data (@SoftPlus.gradient float64 (binary64 rnd libm_exp libm_log) beta x) !! i
  = Some NaN.
Proof.
  intros Hacc Hbeta Hb Hi Hz.
  rewrite (call_item rnd libm_exp libm_log beta b x i (Finite xi) Hbeta Hi).
  rewrite (gradient_item_at rnd libm_exp libm_log beta b x i (Finite xi) Hbeta Hi).
  destruct (items_overflow rnd libm_exp libm_log eps Hacc b xi Hb Hz) as [-> ->].
  split; reflexivity.
Qed.

Lemma large_products_overflow_witness :
  data (@SoftPlus.call float64 (binary64 (fun r => r) exp ln) (Float (Finite 1))
          (mk_ndarray [1%nat] [Finite 1000])) !! 0%nat
  = Some PosInf /\
  data (@SoftPlus.gradient float64 (binary64 (fun r => r) exp ln) (Float (Finite 1))
          (mk_ndarray [1%nat] [Finite 1000])) !! 0%nat
  = Some NaN.
Proof.
  apply (large_products_overflow (fun r => r) exp ln 0 (Float (Finite 1)) 1
           (mk_ndarray [1%nat] [Finite 1000]) 0 1000).
  - apply exact_is_accurate. lra.
  - reflexivity.
  - lra.
  - reflexivity.
  - lra.
Defined.

(** C6, as the code has it.  When rounding, [np.exp] and [np.log] keep the
    order of their arguments, for a finite [beta = b > 0] the element of
    [__call__]'s value at a finite [x_i] is [+inf] or a finite number that
    is not negative, never NaN, and [x_i <= y_i] gives
    [value(x)_i <= value(y)_i]. *)
Theorem call_nonnegative_nondecreasing (rnd libm_exp libm_log : R -> R)
    (beta : number float64) (b : R) (x y : ndarray float64) (i : nat) (xi yi : R) :
  order_preserving rnd libm_exp libm_log ->
  @to_scalar float64 (binary64 rnd libm_exp libm_log) beta = Finite b ->
  (0 < b)%R ->
  data x !! i = Some (Finite xi) ->
  data y !! i = Some (Finite yi) ->
  (xi <= yi)%R ->
  exists vx vy : float64,
    data (@SoftPlus.call float64 (binary64 rnd libm_exp libm_log) beta x) !! i
    = Some vx /\
    data (@SoftPlus.call float64 (binary64 rnd libm_exp libm_log) beta y) !! i
    = Some vy /\
    le64 (Finite 0) vx /\ le64 vx vy.
Proof.
  intros Hord Hbeta Hb Hx Hy Hxy.
  rewrite (call_item rnd libm_exp libm_log beta b x i (Finite xi) Hbeta Hx).
  rewrite (call_item rnd libm_exp libm_log beta b y i (Finite yi) Hbeta Hy).
  destruct (value_item_ordered rnd libm_exp libm_log Hord b xi yi Hb Hxy) as [H0 Hle].
  eexists. eexists. split; [reflexivity |]. split; [reflexivity |].
  split; assumption.
Qed.

Lemma call_nonnegative_nondecreasing_witness :
  exists vx vy : float64,
    data (@SoftPlus.call float64 (binary64 (fun r => r) exp ln) (Float (Finite 1))
            (mk_ndarray [1%nat] [Finite (-1)])) !! 0%nat
    = Some vx /\
    data (@SoftPlus.call float64 (binary64 (fun r => r) exp ln) (Float (Finite 1))
            (mk_ndarray [1%nat] [Finite 1000])) !! 0%nat
    = Some vy /\
    le64 (Finite 0) vx /\ le64 vx vy.
Proof.
  apply (call_nonnegative_nondecreasing (fun r => r) exp ln (Float (Finite 1)) 1
           (mk_ndarray [1%nat] [Finite (-1)]) (mk_ndarray [1%nat] [Finite 1000])
           0 (-1) 1000).
  - exact exact_is_order_preserving.
  - reflexivity.
  - lra.
  - reflexivity.
  - reflexivity.
  - lra.
Defined.



(** ** Products below the range *)

(** X19.  When rounding and the library functions keep [0], [1] and
    [np.log 1 = 0], at a finite element whose product with a finite [beta]
    is at or below [- OVERFLOW] the product is [-inf], [np.exp] gives [0.0],
    and both methods return exactly [0.0]. *)
Theorem product_below_range_gives_zero (rnd libm_exp libm_log : R -> R)
    (beta : number float64) (b : R) (x : ndarray float64) (i : nat) (xi : R) :
  order_preserving rnd libm_exp libm_log ->
  @to_scalar float64 (binary64 rnd libm_exp libm_log) beta = Finite b ->
  data x !! i = Some (Finite xi) ->
  (b * xi <= - OVERFLOW)%R ->
  data (@SoftPlus.call float64 (binary64 rnd libm_exp libm_log) beta x) !! i
  = Some (Finite 0) /\
  data (@SoftPlus.gradient float64 (binary64 rnd libm_exp libm_log) beta x) !! i
  = Some (Finite 0).
Proof.
  intros [Hrnd H0 H1 Hexp Hsign Hlog Hlog1] Hbeta Hi Hz.
  pose proof OVERFLOW_pos as HO.
  rewrite (call_item rnd libm_exp libm_log beta b x i (Finite xi) Hbeta Hi).
  rewrite (gradient_item_at rnd libm_exp libm_log beta b x i (Finite xi) Hbeta Hi).
  cbn [b64_mul]. rewrite (rounded_underflow rnd _ Hz). cbn [b64_exp].
  rewrite rounded_one, H1. cbn [b64_add b64_mul].
  replace (1 + 0)%R with 1%R by lra. replace (b * 0)%R with 0%R by lra.
  rewrite !rounded_finite by lra. rewrite H0, H1. cbn [b64_log b64_div].
  destruct (decide (1 < 0)%R); [lra |].
  destruct (decide (1 = 0)%R); [lra |].
  replace (0 / 1)%R with 0%R by lra.
  rewrite rounded_finite by lra. rewrite H0, Hlog1.
  split; reflexivity.
Qed.

Lemma product_below_range_gives_zero_witness :
  data (@SoftPlus.call float64 (binary64 (fun r => r) exp ln) (Float (Finite 2))
          (mk_ndarray [1%nat] [Finite (- IZR (2 ^ 1023))])) !! 0%nat
  = Some (Finite 0) /\
  data (@SoftPlus.gradient float64 (binary64 (fun r => r) exp ln) (Float (Finite 2))
          (mk_ndarray [1%nat] [Finite (- IZR (2 ^ 1023))])) !! 0%nat
  = Some (Finite 0).
Proof.
  apply (product_below_range_gives_zero (fun r => r) exp ln (Float (Finite 2)) 2
           (mk_ndarray [1%nat] [Finite (- IZR (2 ^ 1023))]) 0 (- IZR (2 ^ 1023))).
  - exact exact_is_order_preserving.
  - reflexivity.
  - reflexivity.
  - unfold OVERFLOW. rewrite <- opp_IZR, <- (mult_IZR 2), <- opp_IZR.
    apply IZR_le. now vm_compute.
Defined.

(** ** Where the formulas of the docstrings fail in float64 *)

Section Float64Extremes.
Local Open Scope R_scope.

Lemma two_is_finite : f_of_int (T := float64) 2 = Finite 2.
Proof. apply in_range_positive; [lra |]. pose proof OVERFLOW_pos. lra. Qed.

(** [2 * -2^1023] is beyond the range. *)
Lemma product_underflows : in_range (2 * - IZR (2 ^ 1023)) = NegInf.
Proof.
  unfold in_range. pose proof OVERFLOW_pos as HO.
  assert (H : 2 * - IZR (2 ^ 1023) <= - OVERFLOW).
  { unfold OVERFLOW. rewrite <- opp_IZR, <- mult_IZR, <- opp_IZR.
    apply IZR_le. now vm_compute. }
  destruct (decide (OVERFLOW <= 2 * - IZR (2 ^ 1023))); [lra |].
  destruct (decide (2 * - IZR (2 ^ 1023) <= - OVERFLOW)); [reflexivity | lra].
Qed.

(** With [beta = 2], at the element [-2^1023] both methods give [0.0]. *)
Lemma items_at_lowest_power :
  f_log (f_add (f_of_int 1)
           (f_exp (f_mul (f_of_int 2) (Finite (- IZR (2 ^ 1023))))))
  = Finite 0 /\
  f_div (f_mul (f_of_int 2)
           (f_exp (f_mul (f_of_int 2) (Finite (- IZR (2 ^ 1023))))))
        (f_add (f_of_int 1)
           (f_exp (f_mul (f_of_int 2) (Finite (- IZR (2 ^ 1023))))))
  = Finite 0.
Proof.
  rewrite two_is_finite, one_is_finite.
  cbn [f_mul f_exp f_add f_log f_div float64_scalar f64_mul].
  rewrite product_underflows. cbn [f64_exp f64_add f64_mul].
  replace (1 + 0) with 1 by lra. replace (2 * 0) with 0 by lra.
  rewrite !in_range_positive by (pose proof OVERFLOW_pos; lra).
  cbn [f64_log f64_div].
  destruct (decide (1 < 0)); [lra |].
  destruct (decide (1 = 0)); [lra |].
  rewrite ln_1. replace (0 / 1) with 0 by lra.
  rewrite in_range_positive by (pose proof OVERFLOW_pos; lra).
  split; reflexivity.
Qed.

(** With [beta = 1], at the elements [1000.0] and [2000.0] [__call__] gives
    [+inf] and [gradient] gives [nan]. *)
Lemma items_at_1000 :
  f_log (f_add (f_of_int 1) (f_exp (f_mul (f_of_int 1) (Finite 1000)))) = PosInf /\
  f_log (f_add (f_of_int 1) (f_exp (f_mul (f_of_int 1) (Finite 2000)))) = PosInf /\
  f_div (f_mul (f_of_int 1) (f_exp (f_mul (f_of_int 1) (Finite 1000))))
        (f_add (f_of_int 1) (f_exp (f_mul (f_of_int 1) (Finite 1000))))
  = NaN.
Proof.
  pose proof OVERFLOW_pos as HO. pose proof exp_1000_overflows as H1000.
  assert (H2000 : OVERFLOW <= exp (1 * 2000)).
  { left. eapply Rlt_trans; [exact H1000 |]. apply exp_increasing. lra. }
  assert (Hbx : - OVERFLOW < 1 * 1000 < OVERFLOW) by lra.
  assert (Hover : OVERFLOW <= exp (1 * 1000)) by (rewrite Rmult_1_l; lra).
  destruct (float64_items_overflow 1 1000 Rlt_0_1 Hbx Hover) as [Hv Hg].
  rewrite one_is_finite in *. split; [exact Hv |]. split; [| exact Hg].
  destruct (float64_items_overflow 1 2000 Rlt_0_1) as [Hv' _];
    [| exact H2000 | rewrite one_is_finite in Hv'; exact Hv'].
  assert (2000 < IZR (10 ^ 308)) by (apply IZR_lt; reflexivity).
  pose proof OVERFLOW_large. lra.
Qed.

End Float64Extremes.



(** C6 fails as it is stated: with [beta = 2], at the finite element
    [-2^1023] [__call__] gives [0.0], which is not positive; with [beta = 1],
    at [1000.0] and at [2000.0] it gives [+inf] both times, which is not an
    increase. *)
Lemma call_is_zero_and_flat :
  data (SoftPlus.call (Int 2) (mk_ndarray [1%nat] [Finite (- IZR (2 ^ 1023))])) !! 0%nat
  = Some (Finite 0) /\
  data (SoftPlus.call (Int 1) (mk_ndarray [1%nat] [Finite 1000])) !! 0%nat
  = Some PosInf /\
  data (SoftPlus.call (Int 1) (mk_ndarray [1%nat] [Finite 2000])) !! 0%nat
  = Some PosInf.
Proof.
  rewrite !call_lookup.
  cbn [data lookup list_lookup fmap option_fmap option_map to_scalar].
  split; [f_equal; apply items_at_lowest_power |].
  split; f_equal; apply items_at_1000.
Qed.

